(** * shorts_limit_bot: one Shorts link per user, per guild, per rolling week

    A shallow embedding of [shorts_limit_bot.py].

    - [Matcher]: [SHORTS_REGEX] and [extract_shorts_links].  Python text is a
      sequence of Unicode code points; the pattern is compiled under the
      flags [(?ix)], so literals and sets are matched the way [re] matches
      them with IGNORECASE on [str] patterns.
    - [Store]: the table [shorts_posts] with its AUTOINCREMENT key, and the
      three statements the bot runs on it (INSERT, SELECT COUNT, DELETE).
    - [Bot]: [on_message], [shorts_stats] and [shorts_reset_me] in a small
      state-and-exception monad; what the outside world answers (clock
      readings, failures of Discord and of SQLite) is an explicit [Env].
    - [Tasks]: two or more [on_message] coroutines interleaved at their
      [await] points. *)

From Stdlib Require Import ZArith NArith List Bool Lia String Ascii.
Import ListNotations.

Set Implicit Arguments.

(** ** Configuration *)

Definition ROLLING_WINDOW_DAYS : Z := 7.
Definition DELETE_OFFENDING_MESSAGES : bool := true.
Definition DM_USER_ON_BLOCK : bool := true.

(** ** The link matcher *)

Module Matcher.

Open Scope N_scope.

(** A Python [str]: code points. *)
Definition text : Type := list N.

(** The code points of an ASCII literal of the source. *)
Definition cps (s : string) : text := map N_of_ascii (list_ascii_of_string s).

Definition cp (a : ascii) : N := N_of_ascii a.

(** *** The regular expressions the pattern needs

    [Chr p] consumes one character of the set [p]; [Rep n p] is a greedy
    repetition [p{n,}] of a one-character set (what [re] compiles to
    MAX_REPEAT over a single character); [Opt r] is the greedy [(?:r)?]. *)
Inductive regex : Type :=
| Eps : regex
| Chr : (N -> bool) -> regex
| Cat : regex -> regex -> regex
| Opt : regex -> regex
| Rep : nat -> (N -> bool) -> regex.

(** Greedy repetition: the remainders after [k] characters of the set, for
    the longest run first and down to [n] of them. *)
Fixpoint rep (p : N -> bool) (n : nat) (s : text) : list text :=
  (match s with
   | c :: s' => if p c then rep p (Nat.pred n) s' else []
   | [] => []
   end) ++ (match n with O => [s] | S _ => [] end).

(** The backtracking matcher as a list of successes: every way the
    expression matches a prefix of [s], as the remainder of [s], in the
    order in which backtracking tries them.  The engine's match is the
    first one. *)
Fixpoint run (r : regex) (s : text) : list text :=
  match r with
  | Eps => [s]
  | Chr p => match s with
             | c :: s' => if p c then [s'] else []
             | [] => []
             end
  | Cat r1 r2 => flat_map (run r2) (run r1 s)
  | Opt r1 => run r1 s ++ [s]
  | Rep n p => rep p n s
  end.

(** [pattern.match] at the head of [s]: the matched text and what follows. *)
Definition match_at (r : regex) (s : text) : option (text * text) :=
  match run r s with
  | rest :: _ => Some (firstn (List.length s - List.length rest) s, rest)
  | [] => None
  end.

(** [pattern.findall]: scan from the left; after a match the scan resumes
    where the match ended ([skip] counts the characters still covered by the
    last match). *)
Fixpoint findall (r : regex) (skip : nat) (s : text) : list text :=
  match skip with
  | S k => match s with
           | [] => []
           | _ :: s' => findall r k s'
           end
  | O =>
      match match_at r s with
      | Some (m, _) =>
          m :: (match s with
                | [] => []
                | _ :: s' => findall r (Nat.pred (List.length m)) s'
                end)
      | None => match s with
                | [] => []
                | _ :: s' => findall r O s'
                end
      end
  end.

(** The words an expression matches, whatever the order of the attempts. *)
Fixpoint lang (r : regex) (w : text) : Prop :=
  match r with
  | Eps => w = []
  | Chr p => exists c, w = [c] /\ p c = true
  | Cat r1 r2 => exists w1 w2, w = w1 ++ w2 /\ lang r1 w1 /\ lang r2 w2
  | Opt r1 => lang r1 w \/ w = []
  | Rep n p => (n <= List.length w)%nat /\ Forall (fun c => p c = true) w
  end.

(** *** Case-insensitive compilation of a [str] pattern

    [sre_lower_unicode] is the simple lowercase mapping.  The pattern's
    literals and sets hold ASCII characters only, and the compiled sets hold
    lowercase ASCII, digits, [_], [-], U+0131 and U+017F.  The mapping is
    written out for the code points it sends into those sets: [A-Z], U+0130
    (capital I with dot above, to [i]) and U+212A (Kelvin sign, to [k]);
    every other code point is sent to a value outside them unless it is in
    them already and fixed, which the identity stands for. *)
Definition sre_lower_unicode (c : N) : N :=
  if (65 <=? c) && (c <=? 90) then c + 32
  else if c =? 304 then 105
  else if c =? 8490 then 107
  else c.

(** [_sre.unicode_iscased], used on the characters of the pattern (ASCII). *)
Definition iscased (c : N) : bool :=
  ((65 <=? c) && (c <=? 90)) || ((97 <=? c) && (c <=? 122)).

(** [_ignorecase_fixes]: lowercase characters that share an uppercase with
    another lowercase character; for ASCII, [i] with U+0131 and [s] with
    U+017F. *)
Definition fixes (lo : N) : list N :=
  if lo =? 105 then [305]
  else if lo =? 115 then [383]
  else [].

Definition mem (c : N) (l : list N) : bool := existsb (N.eqb c) l.

(** A literal of the pattern under IGNORECASE: an uncased character is
    compared as it is (LITERAL); a cased one is compared after lowering the
    text's character (LITERAL_UNI_IGNORE), against its fixes too where it
    has some (IN_UNI_IGNORE). *)
Definition literal_ignore (av : N) : N -> bool :=
  if iscased av then
    let lo := sre_lower_unicode av in
    fun c => mem (sre_lower_unicode c) (lo :: fixes lo)
  else N.eqb av.

(** The items of a set [[...]]. *)
Inductive item : Type :=
| Single : N -> item
| Range : N -> N -> item.

Definition expand (i : item) : list N :=
  match i with
  | Single c => [c]
  | Range lo hi => map (fun k => lo + N.of_nat k) (seq 0 (N.to_nat (hi + 1 - lo)))
  end.

(** [_optimize_charset] with a fixup: the set holds the lowercase of each
    member and its fixes, and the text's character is lowered before the
    test (IN_UNI_IGNORE); a set without cased members stays a plain IN. *)
Definition charmap (items : list item) : list N :=
  flat_map (fun x => let lo := sre_lower_unicode x in lo :: fixes lo)
           (flat_map expand items).

Definition in_ignore (items : list item) : N -> bool :=
  if existsb iscased (flat_map expand items) then
    fun c => mem (sre_lower_unicode c) (charmap items)
  else
    fun c => mem c (flat_map expand items).

(** [.] without DOTALL: anything but a line feed. *)
Definition any_no_newline (c : N) : bool := negb (c =? 10).

(** *** The pattern

    The syntax tree of the source pattern (verbose mode: the layout of the
    pattern is not part of it), over a compilation [lit] of literals and
    [cls] of sets. *)
Section Pattern.
Variable lit : N -> N -> bool.
Variable cls : list item -> N -> bool.

Fixpoint lits (l : text) : regex :=
  match l with
  | [] => Eps
  | a :: l' => Cat (Chr (lit a)) (lits l')
  end.

Definition ID_SET : list item :=
  [Range (cp "A") (cp "Z"); Range (cp "a") (cp "z"); Range (cp "0") (cp "9");
   Single (cp "_"); Single (cp "-")].

Definition TAIL_SET : list item :=
  [Single (cp "/"); Single (cp "?"); Single (cp "#"); Single (cp "&")].

Definition shorts_pattern : regex :=
  (* https?:// *)
  Cat (lits (cps "http"))
 (Cat (Opt (lits (cps "s")))
 (Cat (lits (cps "://"))
  (* (?:www\.)?(?:m\.)?youtube\.com/shorts/ *)
 (Cat (Opt (lits (cps "www.")))
 (Cat (Opt (lits (cps "m.")))
 (Cat (lits (cps "youtube.com/shorts/"))
  (* [A-Za-z0-9_-]{5,} *)
 (Cat (Rep 5 (cls ID_SET))
  (* an optional tail: one of / ? # & and then the rest of the line *)
      (Opt (Cat (Chr (cls TAIL_SET)) (Rep 0 any_no_newline))))))))).
End Pattern.

(** The pattern compiled under the flags i (IGNORECASE) and x (VERBOSE). *)
Definition SHORTS_REGEX : regex := shorts_pattern literal_ignore in_ignore.

(** [text or the empty string]: an absent text reads as the empty one. *)
Definition or_empty (t : option text) : text :=
  match t with
  | Some s => s
  | None => []
  end.

Definition extract_shorts_links (t : option text) : list text :=
  findall SHORTS_REGEX 0 (or_empty t).

(** *** The matching rule in the words of the specification

    A qualifying link: scheme [http] or [https], [://], the host
    [youtube.com] with or without [www.] and [m.] before it, the path
    segment [/shorts/], and an identifier of at least five URL-safe
    characters; the scheme, host and path literals compared without regard
    to (ASCII) case. *)
Definition ascii_lower (c : N) : N :=
  if (65 <=? c) && (c <=? 90) then c + 32 else c.

Definition same_ci (a c : N) : bool := ascii_lower a =? ascii_lower c.

Definition url_safe (c : N) : bool :=
  ((65 <=? c) && (c <=? 90)) || ((97 <=? c) && (c <=? 122))
  || ((48 <=? c) && (c <=? 57)) || (c =? 95) || (c =? 45).

(** [w] spells the literal [l] up to the comparison [eqc]. *)
Definition spells (eqc : N -> N -> bool) (l : string) (w : text) : Prop :=
  Forall2 (fun a c => eqc a c = true) (cps l) w.

Section Rule.
Variable eqc : N -> N -> bool.
Variable idc : N -> bool.

Definition link_shape (w : text) : Prop :=
  exists scheme www m host ident,
    w = scheme ++ www ++ m ++ host ++ ident
    /\ (spells eqc "http://" scheme \/ spells eqc "https://" scheme)
    /\ (www = [] \/ spells eqc "www." www)
    /\ (m = [] \/ spells eqc "m." m)
    /\ spells eqc "youtube.com/shorts/" host
    /\ (5 <= List.length ident)%nat
    /\ Forall (fun c => idc c = true) ident.

(** The text holds a link of that shape; whatever follows it (a trailing
    path, query or fragment, or anything else) is not looked at. *)
Definition contains_link (t : text) : Prop :=
  exists before w after, t = before ++ w ++ after /\ link_shape w.
End Rule.

(** The rule as the specification words it. *)
Definition qualifying_link : text -> Prop := link_shape same_ci url_safe.
Definition contains_qualifying_link : text -> Prop := contains_link same_ci url_safe.

(** The rule with the Unicode side of IGNORECASE spelled out: a literal
    [s] is also matched by U+017F (long s), and the identifier may also hold
    U+0130, U+0131, U+017F and U+212A. *)
Definition same_ci_unicode (a c : N) : bool :=
  same_ci a c || ((ascii_lower a =? 115) && (c =? 383)).

Definition id_char_unicode (c : N) : bool :=
  url_safe c || (c =? 304) || (c =? 305) || (c =? 383) || (c =? 8490).

Definition contains_link_ignorecase : text -> Prop :=
  contains_link same_ci_unicode id_char_unicode.

(** The pattern read with the specification's two comparisons, by which the
    rule above is decided on a given text. *)
Definition SPEC_REGEX : regex :=
  shorts_pattern same_ci (fun items c => mem c (flat_map expand items)).

(** The characters of the pattern's literals. *)
Definition ALPHABET : text := cps "https://www.m.youtube.com/shorts/".

(** The code points below [B], for checks by enumeration. *)
Definition below (B : N) : list N := map N.of_nat (seq 0 (N.to_nat B)).

(** The text of the counterexample to the rule as worded: an identifier of
    four URL-safe characters and U+017F. *)
Definition LONG_S_LINK : text := cps "https://youtube.com/shorts/abcd" ++ [383].

Definition is_ascii (t : text) : Prop := Forall (fun c => c < 128) t.

End Matcher.

(** ** Wall-clock time

    A reading of the clock is a number of microseconds since the epoch.
    [datetime.timestamp()] and [time.time()] are floats of seconds, and
    [int(...)] truncates them toward zero: the table holds whole seconds. *)

Module Clock.

Open Scope Z_scope.

(** [int(t)] for a reading [t]. *)
Definition int_timestamp (us : Z) : Z := Z.quot us 1000000.

(** [timedelta(days=days)]. *)
Definition timedelta (days : Z) : Z := days * 86400 * 1000000.

(** [int((datetime.now(timezone.utc) - timedelta(days=days)).timestamp())]. *)
Definition window_start (now days : Z) : Z := int_timestamp (now - timedelta days).

End Clock.

(** ** The table [shorts_posts] *)

Module Store.

Open Scope Z_scope.

Record Row : Type := mkRow {
  id : Z;
  guild_id : Z;
  user_id : Z;
  posted_at_utc : Z
}.

(** The rows in insertion order, and the largest key ever handed out (what
    AUTOINCREMENT keeps in [sqlite_sequence]). *)
Record DB : Type := mkDB {
  rows : list Row;
  seq : Z
}.

(** The table right after [init_db] on a new file. *)
Definition empty : DB := mkDB [] 0.

Definition max_rowid (l : list Row) : Z :=
  fold_right (fun r m => Z.max (id r) m) 0 l.

Definition next_rowid (d : DB) : Z := Z.max (seq d) (max_rowid (rows d)) + 1.

(** INSERT INTO shorts_posts (guild_id, user_id, posted_at_utc) VALUES (?, ?, ?) *)
Definition insert (d : DB) (g u t : Z) : DB :=
  let i := next_rowid d in
  mkDB (rows d ++ [mkRow i g u t]) i.

(** WHERE guild_id = ? AND user_id = ? AND posted_at_utc >= ?
    The guild parameter is [None] when Python binds [None] (SQL NULL), and a
    comparison with NULL selects no row. *)
Definition where_clause (g : option Z) (u cutoff : Z) (r : Row) : bool :=
  match g with
  | Some g' => (guild_id r =? g') && (user_id r =? u) && (posted_at_utc r >=? cutoff)
  | None => false
  end.

(** SELECT COUNT( * ) FROM shorts_posts WHERE ... *)
Definition select_count (d : DB) (g : option Z) (u cutoff : Z) : Z :=
  Z.of_nat (List.length (filter (where_clause g u cutoff) (rows d))).

(** DELETE FROM shorts_posts WHERE ... *)
Definition delete (d : DB) (g : option Z) (u cutoff : Z) : DB :=
  mkDB (filter (fun r => negb (where_clause g u cutoff r)) (rows d)) (seq d).

(** What the specification asks of [count_since], in its words: an
    occurrence of the pair observed at or after the cutoff. *)
Definition in_window (g u cutoff : Z) (r : Row) : Prop :=
  guild_id r = g /\ user_id r = u /\ cutoff <= posted_at_utc r.

(** [picked P l sel]: [sel] is [l] with the rows outside [P] struck out, so
    that [length sel] is the exact number of rows of [l] inside [P]. *)
Inductive picked (P : Row -> Prop) : list Row -> list Row -> Prop :=
| picked_nil : picked P [] []
| picked_in : forall r l sel, P r -> picked P l sel -> picked P (r :: l) (r :: sel)
| picked_out : forall r l sel, ~ P r -> picked P l sel -> picked P (r :: l) sel.

End Store.

(** ** The bot *)

Module Bot.

Import Matcher.
Open Scope Z_scope.

(** The exceptions the handlers tell apart.  [Forbidden] and [NotFound] are
    subclasses of [discord.HTTPException]. *)
Inductive exn : Type :=
| Forbidden
| NotFound
| HTTPException
| SqliteError
| OtherError.

Definition is_Forbidden (e : exn) : bool :=
  match e with
  | Forbidden => true
  | _ => false
  end.

Definition is_HTTPException (e : exn) : bool :=
  match e with
  | Forbidden | NotFound | HTTPException => true
  | _ => false
  end.

Record Message : Type := mkMessage {
  author_bot : bool;
  author_id : Z;
  webhook_id : option Z;
  content : text;
  guild : option Z
}.

Record Interaction : Type := mkInteraction {
  interaction_guild_id : option Z;
  interaction_user : Z
}.

(** The texts the bot sends, by what varies in them. *)
Inductive notice : Type :=
| BlockedNotice (mention : Z) (days : Z) (no_permission : bool)
| LimitDM
| StatsReply (member : Z) (count : Z) (days : Z)
| ResetReply.

(** Calls to the outside, in the order they are made. *)
Inductive action : Type :=
| MessageDelete (m : Message)
| ChannelSend (n : notice)
| Sleep (seconds : Z)
| WarnDelete (n : notice)
| AuthorSend (user : Z) (n : notice)
| ProcessCommands (m : Message)
| ResponseSend (n : notice).

(** What the outside answers during one handler: the two clock readings
    ([datetime.now] in the count and in the reset, [time.time] in the
    insert), and for each call whether it raises. *)
Record Env : Type := mkEnv {
  now_datetime : Z;
  now_time : Z;
  count_raises : option exn;
  insert_raises : option exn;
  delete_raises : option exn;
  message_delete_raises : option exn;
  channel_send_raises : option exn;
  warn_delete_raises : option exn;
  author_send_raises : option exn;
  process_commands_raises : option exn;
  response_send_raises : option exn
}.

(** An outside that never raises. *)
Definition calm (t1 t2 : Z) : Env :=
  mkEnv t1 t2 None None None None None None None None None.

Record World : Type := mkWorld {
  db : Store.DB;
  trace : list action
}.

Inductive res (A : Type) : Type :=
| Ok : A -> res A
| Raise : exn -> res A.

Arguments Ok {A} _.
Arguments Raise {A} _.

(** A coroutine body: it reads and writes the table, appends to the trace,
    and returns or raises. *)
Definition M (A : Type) : Type := World -> res A * World.

Definition ret {A} (a : A) : M A := fun w => (Ok a, w).

Definition raise {A} (e : exn) : M A := fun w => (Raise e, w).

Definition bind {A B} (m : M A) (k : A -> M B) : M B :=
  fun w => match m w with
           | (Ok a, w') => k a w'
           | (Raise e, w') => (Raise e, w')
           end.

Notation "x <- m ;; k" := (bind m (fun x => k))
  (at level 61, m at next level, right associativity).
Notation "m ;; k" := (bind m (fun _ => k))
  (at level 61, right associativity).

(** One call to the outside: logged, then it returns or raises. *)
Definition call (a : action) (fault : option exn) : M unit :=
  fun w =>
    let w' := mkWorld (db w) (trace w ++ [a]) in
    match fault with
    | Some e => (Raise e, w')
    | None => (Ok tt, w')
    end.

(** [try: m except ...: h]; a handler that does not catch [e] raises it again. *)
Definition try_except {A} (m : M A) (h : exn -> M A) : M A :=
  fun w => match m w with
           | (Ok a, w') => (Ok a, w')
           | (Raise e, w') => h e w'
           end.

(** [try: m finally: f]: [f] runs whether [m] returns or raises; if [f]
    raises, that exception is the one that leaves. *)
Definition try_finally {A} (m : M A) (f : M unit) : M A :=
  fun w => match m w with
           | (r, w') => match f w' with
                        | (Ok _, w'') => (r, w'')
                        | (Raise e, w'') => (Raise e, w'')
                        end
           end.

Definition count_within_window (env : Env) (g : option Z) (u days : Z) : M Z :=
  fun w =>
    match count_raises env with
    | Some e => (Raise e, w)
    | None =>
        (Ok (Store.select_count (db w) g u
               (Clock.window_start (now_datetime env) days)), w)
    end.

(** A failed INSERT or COMMIT leaves the table as it was: the connection is
    closed on leaving the [async with], and what was not committed is gone. *)
Definition record_shorts_post (env : Env) (g u : Z) : M unit :=
  fun w =>
    match insert_raises env with
    | Some e => (Raise e, w)
    | None =>
        (Ok tt, mkWorld (Store.insert (db w) g u (Clock.int_timestamp (now_time env)))
                        (trace w))
    end.

(** The [return] statement, or the end of the body, that a run of
    [on_message] leaves through. *)
Inductive exit : Type :=
| Ignored
| NoLinks
| NoGuild
| Blocked
| Allowed.

(** Truth value of [message.webhook_id] ([None] or an [int]). *)
Definition truthy (w : option Z) : bool :=
  match w with
  | Some z => negb (z =? 0)
  | None => false
  end.

Definition process_commands (env : Env) (m : Message) : M unit :=
  call (ProcessCommands m) (process_commands_raises env).

(** The block branch of [on_message]. *)
Definition block (env : Env) (m : Message) : M exit :=
  let blocked_notice := BlockedNotice (author_id m) ROLLING_WINDOW_DAYS false in
  blocked_notice <-
    (if DELETE_OFFENDING_MESSAGES then
       try_except
         (call (MessageDelete m) (message_delete_raises env) ;; ret blocked_notice)
         (fun e =>
            if is_Forbidden e then
              ret (BlockedNotice (author_id m) ROLLING_WINDOW_DAYS true)
            else if is_HTTPException e then ret blocked_notice
            else raise e)
     else ret blocked_notice) ;;
  try_except
    (call (ChannelSend blocked_notice) (channel_send_raises env) ;;
     call (Sleep 8) None ;;
     call (WarnDelete blocked_notice) (warn_delete_raises env))
    (fun e => if is_HTTPException e then ret tt else raise e) ;;
  (if DM_USER_ON_BLOCK then
     try_except
       (call (AuthorSend (author_id m) LimitDM) (author_send_raises env))
       (fun e => if is_Forbidden e then ret tt else raise e)
   else ret tt) ;;
  ret Blocked.

(** The body of the [try] of [on_message]: the count, and on its answer the
    block branch or the insert. *)
Definition enforce (env : Env) (m : Message) (g : Z) : M exit :=
  current_count <-
    count_within_window env (Some g) (author_id m) ROLLING_WINDOW_DAYS ;;
  if current_count >=? 1 then block env m
  else record_shorts_post env g (author_id m) ;; ret Allowed.

Definition on_message (env : Env) (m : Message) : M exit :=
  if author_bot m || truthy (webhook_id m) then ret Ignored
  else
    let shorts_links := extract_shorts_links (Some (content m)) in
    match shorts_links with
    | [] => process_commands env m ;; ret NoLinks
    | _ :: _ =>
        match guild m with
        | None => process_commands env m ;; ret NoGuild
        | Some g => try_finally (enforce env m g) (process_commands env m)
        end
    end.

(** [/shorts_stats]: [member or interaction.user]. *)
Definition shorts_stats (env : Env) (i : Interaction) (member : option Z) : M unit :=
  let member := match member with
                | Some u => u
                | None => interaction_user i
                end in
  count <- count_within_window env (interaction_guild_id i) member ROLLING_WINDOW_DAYS ;;
  call (ResponseSend (StatsReply member count ROLLING_WINDOW_DAYS))
       (response_send_raises env).

(** [/shorts_reset_me]. *)
Definition shorts_reset_me (env : Env) (i : Interaction) : M unit :=
  let window_start := Clock.window_start (now_datetime env) ROLLING_WINDOW_DAYS in
  (fun w =>
     match delete_raises env with
     | Some e => (Raise e, w)
     | None =>
         (Ok tt, mkWorld (Store.delete (db w) (interaction_guild_id i)
                            (interaction_user i) window_start)
                         (trace w))
     end) ;;
  call (ResponseSend ResetReply) (response_send_raises env).

(** A run of a handler from a table and an empty trace. *)
Definition start (d : Store.DB) : World := mkWorld d [].

(** A message that gets as far as the quota: not from a bot or a webhook,
    holding a Shorts link, posted in the guild [g]. *)
Definition reaches_quota (m : Message) (g : Z) : Prop :=
  author_bot m = false
  /\ truthy (webhook_id m) = false
  /\ extract_shorts_links (Some (content m)) <> []
  /\ guild m = Some g.

(** Properties of a coroutine body used in the statements below: it leaves
    the table as it was; it returns [x] whenever it returns. *)
Definition keeps_db {A} (c : M A) : Prop :=
  forall w, db (snd (c w)) = db w.

Definition leaves_by {A} (x : A) (c : M A) : Prop :=
  forall w, fst (c w) = Ok x \/ exists e, fst (c w) = Raise e.

(** The failures of the advisory calls that the block branch catches: any
    [HTTPException] from the two deletions and the channel notice,
    [Forbidden] from the private notice. *)
Definition caught_http (f : option exn) : bool :=
  match f with
  | Some e => is_HTTPException e
  | None => true
  end.

Definition caught_forbidden (f : option exn) : bool :=
  match f with
  | Some e => is_Forbidden e
  | None => true
  end.

Definition tolerated (env : Env) : bool :=
  caught_http (message_delete_raises env)
  && caught_http (channel_send_raises env)
  && caught_http (warn_delete_raises env)
  && caught_forbidden (author_send_raises env).

(** Sample data: user 42 posts in guild 7, once with one link and once
    with two; a direct message; a reading of the clock. *)
Definition T0 : Z := 1700000000123456.

Definition ONE_LINK : Message :=
  mkMessage false 42 None (cps "look https://youtube.com/shorts/abcde") (Some 7).

Definition TWO_LINKS : Message :=
  mkMessage false 42 None
    (cps "https://youtube.com/shorts/aaaaa https://m.youtube.com/shorts/bbbbb")
    (Some 7).

Definition DIRECT_MESSAGE : Message :=
  mkMessage false 42 None (cps "https://youtube.com/shorts/abcde") None.

Definition FROM_WEBHOOK : Message :=
  mkMessage false 42 (Some 99) (cps "https://youtube.com/shorts/abcde") (Some 7).

Definition RESET_BY_42 : Interaction := mkInteraction (Some 7) 42.

(** A table with a post of the pair three days before [T0], an older one,
    and a post of another user. *)
Definition SAMPLE_DB : Store.DB :=
  Store.mkDB [Store.mkRow 1 7 42 1699000000;
              Store.mkRow 2 7 42 1699740800;
              Store.mkRow 3 7 43 1699999000] 3.

End Bot.

(** ** Handlers running together

    discord.py starts one task per event, and a task gives way at each
    [await].  In [on_message] the count and the insert are two awaits, each
    on a connection of its own: another task can run between them.  A task
    that has passed the link and guild tests is at its count, then at its
    insert, then done; the awaits of the block branch do not touch the
    table. *)

Module Tasks.

Open Scope Z_scope.

Inductive phase : Type :=
| AtCount
| AtInsert
| Done (e : Bot.exit).

(** One step of a task of the pair [(g, u)], the clock reading [t]. *)
Definition step (g u t : Z) (d : Store.DB) (p : phase) : Store.DB * phase :=
  match p with
  | AtCount =>
      if Store.select_count d (Some g) u (Clock.window_start t ROLLING_WINDOW_DAYS) >=? 1
      then (d, Done Bot.Blocked)
      else (d, AtInsert)
  | AtInsert => (Store.insert d g u (Clock.int_timestamp t), Done Bot.Allowed)
  | Done e => (d, Done e)
  end.

(** The task [i] of [ps] takes a step. *)
Fixpoint step_nth (g u t : Z) (i : nat) (d : Store.DB) (ps : list phase)
  : Store.DB * list phase :=
  match ps with
  | [] => (d, [])
  | p :: ps' =>
      match i with
      | O => let '(d', p') := step g u t d p in (d', p' :: ps')
      | S i' => let '(d', ps'') := step_nth g u t i' d ps' in (d', p :: ps'')
      end
  end.

(** A schedule: which task steps, and what the clock reads then. *)
Fixpoint run (g u : Z) (sched : list (nat * Z)) (d : Store.DB) (ps : list phase)
  : Store.DB * list phase :=
  match sched with
  | [] => (d, ps)
  | (i, t) :: sched' =>
      let '(d', ps') := step_nth g u t i d ps in run g u sched' d' ps'
  end.


Definition allowed (ps : list phase) : nat :=
  List.length (filter (fun p => match p with Done Bot.Allowed => true | _ => false end) ps).



End Tasks.

(** ** Further notions for the statements about the scan, the keys and the calls *)

Module Scan.

Import Matcher.
Open Scope N_scope.

(** [scanned P t ms]: the matches [ms] lie in the text [t] one after the
    other without overlap, each followed by a remainder with which it
    satisfies [P]. *)
Inductive scanned (P : text -> text -> Prop) : text -> list text -> Prop :=
| scanned_end : forall s, scanned P s []
| scanned_match : forall gap m rest ms,
    P m rest -> scanned P rest ms -> scanned P (gap ++ m ++ rest) (m :: ms).

(** The set of the optional tail: [/], [?], [#] and [&]. *)
Definition in_tail_set (c : N) : bool := mem c [47; 63; 35; 38].


(** What may follow a match: the end of the text, a line feed, or a
    character that neither extends the identifier nor opens a tail. *)
Definition stops_cleanly (rest : text) : Prop :=
  match rest with
  | [] => True
  | c :: _ => c = 10 \/ (id_char_unicode c = false /\ in_tail_set c = false)
  end.

Definition head_ok (Q : text -> Prop) (l : list text) : Prop :=
  match l with
  | [] => True
  | x :: _ => Q x
  end.

Definition ascii_upper (c : N) : N :=
  if (97 <=? c) && (c <=? 122) then c - 32 else c.

(** Every set of the expression holds [f c] exactly when it holds [c]. *)
Fixpoint respects (f : N -> N) (r : regex) : Prop :=
  match r with
  | Eps => True
  | Chr p => forall c, p (f c) = p c
  | Cat r1 r2 => respects f r1 /\ respects f r2
  | Opt r1 => respects f r1
  | Rep _ p => forall c, p (f c) = p c
  end.

End Scan.

Module Keys.

Import Store.
Open Scope Z_scope.

(** The keys grow along the table, from above [lo]. *)
Fixpoint increasing (lo : Z) (l : list Row) : Prop :=
  match l with
  | [] => True
  | r :: l' => lo < id r /\ increasing (id r) l'
  end.

(** A table as INSERT and DELETE leave it: positive keys in increasing
    order, none above the sequence. *)
Definition well_keyed (d : DB) : Prop :=
  0 <= seq d
  /\ increasing 0 (rows d)
  /\ forall r, In r (rows d) -> id r <= seq d.

Definition same_pair (r1 r2 : Row) : Prop :=
  guild_id r1 = guild_id r2 /\ user_id r1 = user_id r2.

(** The window in seconds. *)
Definition WINDOW_SECONDS : Z := ROLLING_WINDOW_DAYS * 86400.

(** Two rows of one pair are more than a window apart, the later row the
    later post. *)
Fixpoint spaced (l : list Row) : Prop :=
  match l with
  | [] => True
  | r :: l' =>
      (forall r', In r' l' -> same_pair r r' ->
                  posted_at_utc r + WINDOW_SECONDS < posted_at_utc r')
      /\ spaced l'
  end.

End Keys.

Module Calls.

Import Bot.

(** The calls that act on the message or speak to its author. *)
Definition advisory (a : action) : Prop :=
  match a with
  | ProcessCommands _ | ResponseSend _ => False
  | _ => True
  end.

(** The body only appends to the trace, and only calls in [P]. *)
Definition logs {A} (P : action -> Prop) (c : M A) : Prop :=
  forall w, exists l, trace (snd (c w)) = trace w ++ l /\ Forall P l.

(** The notice of the block branch: it says so when the deletion was
    refused. *)
Definition notice_for (env : Env) (m : Message) : notice :=
  BlockedNotice (author_id m) ROLLING_WINDOW_DAYS
    (match message_delete_raises env with
     | Some e => is_Forbidden e
     | None => false
     end).

(** The calls of the block branch when the two deletions and the channel
    notice fail, if at all, with an [HTTPException]: the sleep and the
    removal of the notice are made only when the notice was sent. *)
Definition block_calls (env : Env) (m : Message) : list action :=
  [MessageDelete m; ChannelSend (notice_for env m)]
  ++ (match channel_send_raises env with
      | None => [Sleep 8; WarnDelete (notice_for env m)]
      | Some _ => []
      end)
  ++ [AuthorSend (author_id m) LimitDM].

End Calls.

(** * Facts *)

(** ** The matcher: what [findall] finds *)

Section MatcherFacts.

Import Matcher.

Lemma rep_spec (p : N -> bool) (s : text) :
  forall n rest,
    In rest (rep p n s) <->
    exists w, s = w ++ rest /\ (n <= List.length w)%nat /\ Forall (fun c => p c = true) w.
Proof.
  induction s as [|c s IH]; intros n rest; simpl.
  - destruct n; simpl; split.
    + intros [<-|[]]. exists []. repeat split; auto.
    + intros (w & E & _ & _). symmetry in E. apply app_eq_nil in E. left. symmetry. tauto.
    + intros [].
    + intros (w & E & L & _). symmetry in E. apply app_eq_nil in E.
      destruct E as [-> _]. simpl in L. lia.
  - rewrite in_app_iff. split.
    + intros [H|H].
      * destruct (p c) eqn:Pc; [|destruct H].
        apply IH in H. destruct H as (w & -> & L & F).
        exists (c :: w). simpl. repeat split; auto. lia.
      * destruct n; [|destruct H]. destruct H as [<-|[]].
        exists []. repeat split; auto.
    + intros (w & E & L & F). destruct w as [|c' w].
      * right. simpl in *. subst rest. destruct n; [left; reflexivity|lia].
      * left. simpl in E. injection E as <- ->. inversion F; subst.
        rewrite H1. apply IH. exists w. repeat split; auto. simpl in L. lia.
Qed.

Lemma run_spec (r : regex) :
  forall s rest, In rest (run r s) <-> exists w, s = w ++ rest /\ lang r w.
Proof.
  induction r as [|p|r1 IH1 r2 IH2|r1 IH1|n p]; intros s rest; simpl.
  - split.
    + intros [<-|[]]. exists []. auto.
    + intros (w & -> & ->). left. reflexivity.
  - destruct s as [|c s]; simpl.
    + split; [intros []|]. intros (w & E & c & -> & _). discriminate.
    + destruct (p c) eqn:Pc; simpl; split.
      * intros [<-|[]]. exists [c]. split; eauto.
      * intros (w & E & c' & -> & _). injection E as _ ->. auto.
      * intros [].
      * intros (w & E & c' & -> & Pc'). injection E as -> _. congruence.
  - rewrite in_flat_map. split.
    + intros (mid & H1 & H2). apply IH1 in H1. apply IH2 in H2.
      destruct H1 as (w1 & -> & L1). destruct H2 as (w2 & -> & L2).
      exists (w1 ++ w2). rewrite <- app_assoc. eauto 6.
    + intros (w & -> & w1 & w2 & -> & L1 & L2). exists (w2 ++ rest). split.
      * apply IH1. exists w1. rewrite <- app_assoc. auto.
      * apply IH2. eauto.
  - rewrite in_app_iff. split.
    + intros [H|[<-|[]]].
      * apply IH1 in H. destruct H as (w & -> & L). eauto.
      * exists []. auto.
    + intros (w & -> & [L| ->]).
      * left. apply IH1. eauto.
      * right. left. reflexivity.
  - apply rep_spec.
Qed.

Lemma match_at_None (r : regex) (s : text) :
  match_at r s = None <-> forall w rest, s = w ++ rest -> ~ lang r w.
Proof.
  unfold match_at. destruct (run r s) as [|rest l] eqn:R; split; auto.
  - intros _ w rest E L.
    assert (H : In rest (run r s)) by (apply run_spec; eauto).
    rewrite R in H. destruct H.
  - discriminate.
  - intros H. exfalso.
    assert (I : In rest (run r s)) by (rewrite R; left; reflexivity).
    apply run_spec in I. destruct I as (w & E & L). exact (H w rest E L).
Qed.

Lemma findall_nil (r : regex) (s : text) :
  findall r 0 s = [] <-> forall before t, s = before ++ t -> match_at r t = None.
Proof.
  induction s as [|c s IH]; simpl.
  - destruct (match_at r []) as [[m rest]|] eqn:M; split; try discriminate; auto.
    + intros H. specialize (H [] [] eq_refl). congruence.
    + intros _ before t E. symmetry in E. apply app_eq_nil in E.
      destruct E as [_ ->]. exact M.
  - destruct (match_at r (c :: s)) as [[m rest]|] eqn:M; split; try discriminate.
    + intros H. specialize (H [] (c :: s) eq_refl). congruence.
    + intros H before t E. destruct before as [|c' before]; simpl in E.
      * subst t. exact M.
      * injection E as _ ->. apply (proj1 IH H before t eq_refl).
    + intros H. apply IH. intros before t ->. apply (H (c :: before) t). reflexivity.
Qed.

(** [findall] finds something exactly when some part of the text is a word
    of the expression. *)
Lemma findall_found (r : regex) (s : text) :
  findall r 0 s <> [] <-> exists before w after, s = before ++ w ++ after /\ lang r w.
Proof.
  split.
  - intros H. destruct (findall r 0 s) eqn:F; [congruence|]. clear H.
    assert (D : forall k : nat, forall t, List.length t = k ->
                (forall before u, t = before ++ u -> match_at r u = None) \/
                (exists before u, t = before ++ u /\ match_at r u <> None)).
    { induction k; intros t' L.
      - destruct t'; [|discriminate]. destruct (match_at r []) eqn:M.
        + right. exists [], []. split; [reflexivity|congruence].
        + left. intros before u E. symmetry in E. apply app_eq_nil in E.
          destruct E as [_ ->]. exact M.
      - destruct t' as [|c t']; [discriminate|]. injection L as L.
        destruct (match_at r (c :: t')) eqn:M.
        + right. exists [], (c :: t'). split; [reflexivity|congruence].
        + destruct (IHk t' L) as [N|(before & u & -> & N)].
          * left. intros before u E. destruct before; simpl in E.
            -- subst u. exact M.
            -- injection E as _ ->. eapply N. reflexivity.
          * right. exists (c :: before), u. auto. }
    destruct (D _ s eq_refl) as [N|(before & u & -> & N)].
    + apply findall_nil in N. congruence.
    + destruct (run r u) as [|rest l'] eqn:R.
      * unfold match_at in N. rewrite R in N. congruence.
      * assert (I : In rest (run r u)) by (rewrite R; left; reflexivity).
        apply run_spec in I. destruct I as (w & -> & L). eauto.
  - intros (before & w & after & -> & L) F.
    pose proof (proj1 (findall_nil r _) F before (w ++ after) eq_refl) as N.
    exact (proj1 (match_at_None r _) N w after eq_refl L).
Qed.

End MatcherFacts.

Section PatternFacts.

Import Matcher.

Variable lit : N -> N -> bool.
Variable cls : list item -> N -> bool.

Lemma lang_lits (l w : text) :
  lang (lits lit l) w <-> Forall2 (fun a c => lit a c = true) l w.
Proof.
  revert w. induction l as [|a l IH]; intros w; simpl.
  - split; [intros ->; constructor|inversion 1; reflexivity].
  - split.
    + intros (w1 & w2 & -> & (c & -> & Pc) & L). constructor; [exact Pc|]. apply IH, L.
    + inversion 1; subst. exists [y], l'. repeat split; eauto. apply IH. assumption.
Qed.

Lemma lang_spells (l : string) (w : text) :
  lang (lits lit (cps l)) w <-> spells lit l w.
Proof. apply lang_lits. Qed.

Lemma spells_app (l1 l2 l : string) (w1 w2 : text) :
  cps l = cps l1 ++ cps l2 ->
  spells lit l1 w1 -> spells lit l2 w2 -> spells lit l (w1 ++ w2).
Proof. unfold spells. intros ->. apply Forall2_app. Qed.

Lemma spells_split (l1 l2 l : string) (w : text) :
  cps l = cps l1 ++ cps l2 ->
  spells lit l w ->
  exists w1 w2, w = w1 ++ w2 /\ spells lit l1 w1 /\ spells lit l2 w2.
Proof.
  unfold spells. intros -> H. apply Forall2_app_inv_l in H.
  destruct H as (w1 & w2 & H1 & H2 & ->). eauto.
Qed.

(** A word of the pattern is a link of the rule's shape and an optional
    tail. *)
Lemma pattern_shape (w : text) :
  lang (shorts_pattern lit cls) w <->
  exists core tail,
    w = core ++ tail
    /\ link_shape lit (cls ID_SET) core
    /\ lang (Opt (Cat (Chr (cls TAIL_SET)) (Rep 0 any_no_newline))) tail.
Proof.
  unfold shorts_pattern. cbn [lang]. split.
  - intros (a & r1 & -> & La & b & r2 & -> & Lb & c & r3 & -> & Lc
            & d & r4 & -> & Ld & e & r5 & -> & Le & f & r6 & -> & Lf
            & i & tl & -> & [Li Fi] & Ltl).
    apply lang_spells in La, Lc, Lf.
    exists (a ++ b ++ c ++ d ++ e ++ f ++ i), tl. split; [|split].
    + repeat rewrite <- app_assoc. reflexivity.
    + exists (a ++ b ++ c), d, e, f, i. split; [|split; [|split; [|split; [|split; [|split]]]]].
      * repeat rewrite <- app_assoc. reflexivity.
      * destruct Lb as [Lb| ->].
        -- right. apply lang_spells in Lb.
           apply (@spells_app "http" "s://"); [reflexivity|exact La|].
           apply (@spells_app "s" "://"); [reflexivity|exact Lb|exact Lc].
        -- left. apply (@spells_app "http" "://"); [reflexivity|exact La|exact Lc].
      * destruct Ld as [Ld| ->]; [right; apply lang_spells, Ld|left; reflexivity].
      * destruct Le as [Le| ->]; [right; apply lang_spells, Le|left; reflexivity].
      * exact Lf.
      * exact Li.
      * exact Fi.
    + exact Ltl.
  - intros (core & tl & -> & (scheme & www & m & host & ident & -> & Hs & Hw & Hm & Hh & Li & Fi) & Ltl).
    assert (S : exists a b c, scheme = a ++ b ++ c /\ spells lit "http" a
                /\ (lang (lits lit (cps "s")) b \/ b = []) /\ spells lit "://" c).
    { destruct Hs as [Hs|Hs].
      - apply (@spells_split "http" "://") in Hs; [|reflexivity].
        destruct Hs as (a & c & -> & Ha & Hc). exists a, [], c. auto.
      - apply (@spells_split "http" "s://") in Hs; [|reflexivity].
        destruct Hs as (a & bc & -> & Ha & Hbc).
        apply (@spells_split "s" "://") in Hbc; [|reflexivity].
        destruct Hbc as (b & c & -> & Hb & Hc). exists a, b, c.
        repeat split; auto. left. apply lang_spells, Hb. }
    destruct S as (a & b & c & -> & Ha & Hb & Hc).
    exists a, (b ++ c ++ www ++ m ++ host ++ ident ++ tl).
    split; [repeat rewrite <- app_assoc; reflexivity|].
    split; [apply lang_spells, Ha|].
    exists b, (c ++ www ++ m ++ host ++ ident ++ tl). split; [reflexivity|].
    split; [exact Hb|].
    exists c, (www ++ m ++ host ++ ident ++ tl). split; [reflexivity|].
    split; [apply lang_spells, Hc|].
    exists www, (m ++ host ++ ident ++ tl). split; [reflexivity|].
    split; [destruct Hw as [->|Hw]; [right; reflexivity|left; apply lang_spells, Hw]|].
    exists m, (host ++ ident ++ tl). split; [reflexivity|].
    split; [destruct Hm as [->|Hm]; [right; reflexivity|left; apply lang_spells, Hm]|].
    exists host, (ident ++ tl). split; [reflexivity|].
    split; [apply lang_spells, Hh|].
    exists ident, tl. auto.
Qed.

(** The scan finds something exactly when the text holds a link of the
    rule's shape. *)
Lemma found_iff_contains (t : text) :
  findall (shorts_pattern lit cls) 0 t <> [] <-> contains_link lit (cls ID_SET) t.
Proof.
  rewrite findall_found. split.
  - intros (before & w & after & -> & L). apply pattern_shape in L.
    destruct L as (core & tl & -> & Sh & _).
    exists before, core, (tl ++ after). rewrite <- app_assoc. auto.
  - intros (before & w & after & -> & Sh). exists before, w, after. split; [reflexivity|].
    apply pattern_shape. exists w, []. rewrite app_nil_r. repeat split; auto.
    right. reflexivity.
Qed.

End PatternFacts.

Section Agreement.

Import Matcher.

Lemma mem_In (c : N) (l : list N) : mem c l = true <-> In c l.
Proof.
  unfold mem. rewrite existsb_exists. split.
  - intros (x & I & E). apply N.eqb_eq in E. subst. exact I.
  - intros I. exists c. split; [exact I|apply N.eqb_refl].
Qed.

Lemma spells_ext (eqc eqc' : N -> N -> bool) (l : string) (w : text) :
  (forall a c, In a (cps l) -> In c w -> eqc a c = eqc' a c) ->
  spells eqc l w -> spells eqc' l w.
Proof.
  unfold spells. generalize (cps l). intros l0 H F. induction F; constructor.
  - rewrite <- H; auto; left; reflexivity.
  - apply IHF. intros a c Ia Ic. apply H; right; assumption.
Qed.

(** Two readings of the rule that agree on the characters of a text and of
    the pattern find the same links in it. *)
Lemma contains_link_ext (eqc eqc' : N -> N -> bool) (idc idc' : N -> bool) (t : text) :
  (forall a c, In a ALPHABET -> In c t -> eqc a c = eqc' a c) ->
  (forall c, In c t -> idc c = idc' c) ->
  contains_link eqc idc t -> contains_link eqc' idc' t.
Proof.
  intros He Hi (before & w & after & -> & scheme & www & m & host & ident & -> & Hs & Hw & Hm & Hh & Li & Fi).
  exists before, (scheme ++ www ++ m ++ host ++ ident), after. split; [reflexivity|].
  assert (In_t : forall c (p : text), incl p (scheme ++ www ++ m ++ host ++ ident) -> In c p ->
                 In c (before ++ (scheme ++ www ++ m ++ host ++ ident) ++ after)).
  { intros c p Ip Ic. apply in_or_app. right. apply in_or_app. left. apply Ip, Ic. }
  assert (Sp : forall (l : string) (p : text),
             forallb (fun a => mem a ALPHABET) (cps l) = true ->
             incl p (scheme ++ www ++ m ++ host ++ ident) ->
             spells eqc l p -> spells eqc' l p).
  { intros l p Al Ip. apply spells_ext. intros a c Ia Ic. apply He.
    - rewrite forallb_forall in Al. apply mem_In, Al, Ia.
    - eapply In_t; eauto. }
  exists scheme, www, m, host, ident.
  assert (I1 : incl scheme (scheme ++ www ++ m ++ host ++ ident))
    by (apply incl_appl, incl_refl).
  assert (I2 : incl www (scheme ++ www ++ m ++ host ++ ident))
    by (apply incl_appr, incl_appl, incl_refl).
  assert (I3 : incl m (scheme ++ www ++ m ++ host ++ ident))
    by (do 2 apply incl_appr; apply incl_appl, incl_refl).
  assert (I4 : incl host (scheme ++ www ++ m ++ host ++ ident))
    by (do 3 apply incl_appr; apply incl_appl, incl_refl).
  assert (I5 : incl ident (scheme ++ www ++ m ++ host ++ ident))
    by (do 4 apply incl_appr; apply incl_refl).
  split; [|split; [|split; [|split; [|split; [|split]]]]].
  - reflexivity.
  - destruct Hs as [Hs|Hs]; [left|right]; revert Hs; apply Sp; auto.
  - destruct Hw as [->|Hw]; [left; reflexivity|right]. revert Hw. apply Sp; auto.
  - destruct Hm as [->|Hm]; [left; reflexivity|right]. revert Hm. apply Sp; auto.
  - revert Hh. apply Sp; auto.
  - exact Li.
  - rewrite Forall_forall in *. intros c Ic. rewrite <- Hi; [apply Fi, Ic|].
    eapply In_t; eauto.
Qed.

Lemma below_all (B : N) (P : N -> bool) :
  forallb P (below B) = true -> forall c, (c < B)%N -> P c = true.
Proof.
  intros H c L. rewrite forallb_forall in H. apply H. unfold below.
  apply in_map_iff. exists (N.to_nat c). split; [apply N2Nat.id|].
  apply in_seq. lia.
Qed.

End Agreement.

Section CompiledSets.

Import Matcher.
Open Scope N_scope.

(** Decide the comparisons of the goal one at a time, dropping the
    branches the hypotheses exclude. *)
Ltac cmp :=
  repeat match goal with
         | |- context [N.leb ?a ?b] =>
             destruct (N.leb_spec a b); try (exfalso; lia)
         | |- context [N.eqb ?a ?b] =>
             destruct (N.eqb_spec a b); try (exfalso; lia)
         | |- context [N.ltb ?a ?b] =>
             destruct (N.ltb_spec a b); try (exfalso; lia)
         end;
  cbn [andb orb negb existsb forallb].

Lemma lower_far (c : N) : 384 <= c -> c <> 8490 -> sre_lower_unicode c = c.
Proof. intros H K. unfold sre_lower_unicode. cmp; reflexivity. Qed.

Lemma mem_beyond (B c : N) (l : list N) :
  forallb (fun x => x <? B) l = true -> B <= c -> mem c l = false.
Proof.
  intros F L. destruct (mem c l) eqn:E; [|reflexivity].
  apply mem_In in E. rewrite forallb_forall in F. apply F in E.
  apply N.ltb_lt in E. lia.
Qed.

Lemma in_ignore_ID_SET (c : N) :
  in_ignore ID_SET c = mem (sre_lower_unicode c) (charmap ID_SET).
Proof. reflexivity. Qed.

(** The identifier set as compiled: the URL-safe characters and four more. *)
Lemma in_ignore_ID_SET_chars (c : N) : in_ignore ID_SET c = id_char_unicode c.
Proof.
  destruct (N.lt_ge_cases c 384) as [L|G].
  - apply eqb_prop. revert c L. apply (@below_all 384). vm_compute. reflexivity.
  - destruct (N.eq_dec c 8490) as [->|K]; [vm_compute; reflexivity|].
    rewrite in_ignore_ID_SET, (lower_far G K).
    rewrite (@mem_beyond 384); [|vm_compute; reflexivity|exact G].
    unfold id_char_unicode, url_safe. cmp; reflexivity.
Qed.

Lemma plain_ID_SET_chars (c : N) : mem c (flat_map expand ID_SET) = url_safe c.
Proof.
  destruct (N.lt_ge_cases c 128) as [L|G].
  - apply eqb_prop. revert c L. apply (@below_all 128). vm_compute. reflexivity.
  - rewrite (@mem_beyond 128); [|vm_compute; reflexivity|exact G].
    unfold url_safe. cmp; reflexivity.
Qed.

(** A literal of the pattern as compiled: the same letter in either case,
    and U+017F for [s]. *)
Lemma literal_ignore_chars (a c : N) :
  In a ALPHABET -> literal_ignore a c = same_ci_unicode a c.
Proof.
  intros A. destruct (N.lt_ge_cases c 384) as [L|G].
  - apply eqb_prop. revert c L. apply (@below_all 384).
    revert a A. apply forallb_forall. vm_compute. reflexivity.
  - destruct (N.eq_dec c 8490) as [->|K].
    { apply eqb_prop. revert a A. apply forallb_forall. vm_compute. reflexivity. }
    assert (B : (a <? 128) = true).
    { revert a A. apply forallb_forall. vm_compute. reflexivity. }
    apply N.ltb_lt in B.
    assert (E1 : same_ci_unicode a c = false).
    { assert (Lc : ascii_lower c = c) by (unfold ascii_lower; cmp; reflexivity).
      assert (La : ascii_lower a < 160) by (unfold ascii_lower; cmp; lia).
      unfold same_ci_unicode, same_ci. rewrite Lc.
      destruct (N.eqb_spec (ascii_lower a) c); [lia|].
      destruct (N.eqb_spec c 383); [lia|]. rewrite andb_false_r. reflexivity. }
    rewrite E1. unfold literal_ignore. destruct (iscased a).
    + rewrite (lower_far G K). apply (@mem_beyond 384); [|exact G].
      assert (La : sre_lower_unicode a < 160) by (unfold sre_lower_unicode; cmp; lia).
      unfold fixes. cbn [forallb]. cmp; reflexivity.
    + apply N.eqb_neq. lia.
Qed.

(** On ASCII text the compiled comparisons are the specification's. *)
Lemma same_ci_unicode_ascii (a c : N) : c < 128 -> same_ci_unicode a c = same_ci a c.
Proof.
  intros L. unfold same_ci_unicode.
  destruct (N.eqb_spec c 383); [lia|]. rewrite andb_false_r, orb_false_r. reflexivity.
Qed.

Lemma id_char_unicode_ascii (c : N) : c < 128 -> id_char_unicode c = url_safe c.
Proof.
  intros L. unfold id_char_unicode.
  destruct (N.eqb_spec c 304); [lia|]. destruct (N.eqb_spec c 305); [lia|].
  destruct (N.eqb_spec c 383); [lia|]. destruct (N.eqb_spec c 8490); [lia|].
  rewrite !orb_false_r. reflexivity.
Qed.

End CompiledSets.

Section MatcherClaims.

Import Matcher.

Lemma found_iff_ignorecase (t : text) :
  extract_shorts_links (Some t) <> [] <-> contains_link_ignorecase t.
Proof.
  unfold extract_shorts_links, SHORTS_REGEX, contains_link_ignorecase. simpl or_empty.
  rewrite found_iff_contains. split; apply contains_link_ext; intros.
  - apply literal_ignore_chars; assumption.
  - apply in_ignore_ID_SET_chars.
  - symmetry. apply literal_ignore_chars; assumption.
  - symmetry. apply in_ignore_ID_SET_chars.
Qed.

Lemma ignorecase_ascii (t : text) :
  is_ascii t -> (contains_link_ignorecase t <-> contains_qualifying_link t).
Proof.
  intros A. unfold is_ascii in A. rewrite Forall_forall in A.
  split; apply contains_link_ext; intros.
  - apply same_ci_unicode_ascii; auto.
  - apply id_char_unicode_ascii; auto.
  - symmetry. apply same_ci_unicode_ascii; auto.
  - symmetry. apply id_char_unicode_ascii; auto.
Qed.

(** The rule as worded is decided by scanning with [SPEC_REGEX]. *)
Lemma qualifying_iff_spec_scan (t : text) :
  contains_qualifying_link t <-> findall SPEC_REGEX 0 t <> [].
Proof.
  unfold SPEC_REGEX. rewrite found_iff_contains.
  split; apply contains_link_ext; intros; try reflexivity.
  - symmetry. apply plain_ID_SET_chars.
  - apply plain_ID_SET_chars.
Qed.

Lemma findall_length (r : regex) :
  match_at r [] = None ->
  forall s k, (List.length (findall r k s) <= List.length s)%nat.
Proof.
  intros E. induction s as [|c s IH]; intros k.
  - destruct k; simpl; [rewrite E|]; auto.
  - destruct k; simpl.
    + destruct (match_at r (c :: s)) as [[m rest]|]; simpl.
      * apply le_n_S, IH.
      * apply Nat.le_le_succ_r, IH.
    + apply Nat.le_le_succ_r, IH.
Qed.

(** X19.  On a text of ASCII characters, [extract_shorts_links] returns a
    non-empty list exactly when the text holds a qualifying link as the
    specification words it.  On any text, it does so exactly when the text
    holds a link under the comparisons the flag [i] compiles to on a [str]
    pattern, which also take U+017F for a literal [s] and U+0130, U+0131,
    U+017F and U+212A for identifier characters. *)
Theorem extract_shorts_links_nonempty_iff :
  (forall t, extract_shorts_links (Some t) <> [] <-> contains_link_ignorecase t)
  /\ (forall t, is_ascii t ->
        (extract_shorts_links (Some t) <> [] <-> contains_qualifying_link t)).
Proof.
  split.
  - apply found_iff_ignorecase.
  - intros t A. rewrite found_iff_ignorecase. apply ignorecase_ascii, A.
Qed.

Lemma extract_shorts_links_nonempty_iff_witness :
  is_ascii (cps "see https://m.youtube.com/shorts/a_b-c9?x=1")
  /\ (extract_shorts_links (Some (cps "see https://m.youtube.com/shorts/a_b-c9?x=1")) <> []
      <-> contains_qualifying_link (cps "see https://m.youtube.com/shorts/a_b-c9?x=1")).
Proof.
  assert (A : is_ascii (cps "see https://m.youtube.com/shorts/a_b-c9?x=1")).
  { unfold is_ascii. apply Forall_forall. intros c I.
    apply N.ltb_lt. revert c I. apply forallb_forall. vm_compute. reflexivity. }
  split; [exact A|].
  exact (proj2 extract_shorts_links_nonempty_iff _ A).
Defined.

(** C3.  The pattern spells the identifier's set out as [[A-Za-z0-9_-]]
    and is meant to match strictly, yet at [https://youtube.com/shorts/abcd]
    followed by U+017F the code departs from the rule: the identifier has
    four URL-safe characters only, so the text holds no qualifying link,
    and [extract_shorts_links] returns the whole text as a match.  The flag
    [i] without [re.ASCII] lets the set take U+017F. *)
Lemma extract_shorts_links_long_s :
  ~ (extract_shorts_links (Some LONG_S_LINK) <> [] <-> contains_qualifying_link LONG_S_LINK).
Proof.
  intros [H _].
  assert (F : extract_shorts_links (Some LONG_S_LINK) <> []) by (vm_compute; discriminate).
  apply H, qualifying_iff_spec_scan in F. apply F. vm_compute. reflexivity.
Qed.

(** C8.  [extract_shorts_links] is a function defined on every input, an
    absent text included; on an absent and on an empty text it returns the
    empty list, and it never returns more matches than the text has
    characters. *)
Theorem extract_shorts_links_total :
  (forall t, exists l, extract_shorts_links t = l
                       /\ (List.length l <= List.length (or_empty t))%nat)
  /\ extract_shorts_links None = []
  /\ extract_shorts_links (Some []) = [].
Proof.
  split; [|split; reflexivity].
  intros t. eexists. split; [reflexivity|].
  unfold extract_shorts_links. apply findall_length. reflexivity.
Qed.

End MatcherClaims.

(** ** The table *)

Section StoreFacts.

Import Store.
Open Scope Z_scope.

Lemma where_clause_in_window (g u cutoff : Z) (r : Row) :
  where_clause (Some g) u cutoff r = true <-> in_window g u cutoff r.
Proof.
  unfold where_clause, in_window.
  rewrite !andb_true_iff, !Z.eqb_eq, Z.geb_le. tauto.
Qed.

Lemma picked_filter (P : Row -> Prop) (f : Row -> bool) :
  (forall r, f r = true <-> P r) ->
  forall l, picked P l (filter f l).
Proof.
  intros R. induction l as [|r l IH]; simpl.
  - constructor.
  - destruct (f r) eqn:E.
    + apply picked_in; [apply R, E|exact IH].
    + apply picked_out; [|exact IH]. intros H. apply R in H. congruence.
Qed.

Lemma picked_unique (P : Row -> Prop) (l s1 s2 : list Row) :
  picked P l s1 -> picked P l s2 -> s1 = s2.
Proof.
  intros H1. revert s2. induction H1; intros s2 H2; inversion H2; subst;
    try contradiction; auto.
  f_equal. auto.
Qed.

Lemma select_count_picked (d : DB) (g u cutoff : Z) (sel : list Row) :
  picked (in_window g u cutoff) (rows d) sel ->
  select_count d (Some g) u cutoff = Z.of_nat (List.length sel).
Proof.
  intros H. unfold select_count. f_equal. f_equal.
  eapply picked_unique; [|exact H].
  apply picked_filter. intros r. apply where_clause_in_window.
Qed.

Lemma select_count_nonneg (d : DB) (g : option Z) (u cutoff : Z) :
  0 <= select_count d g u cutoff.
Proof. unfold select_count. lia. Qed.

Lemma select_count_zero (d : DB) (g u cutoff : Z) :
  select_count d (Some g) u cutoff < 1 <->
  forall r, In r (rows d) -> where_clause (Some g) u cutoff r = false.
Proof.
  unfold select_count. split.
  - intros H r I. destruct (where_clause (Some g) u cutoff r) eqn:E; [|reflexivity].
    assert (F : In r (filter (where_clause (Some g) u cutoff) (rows d)))
      by (apply filter_In; auto).
    destruct (filter (where_clause (Some g) u cutoff) (rows d)); [destruct F|].
    simpl List.length in H. lia.
  - generalize (rows d). induction l as [|r l IH]; intros H; [simpl; lia|].
    cbn [filter]. rewrite (H r (or_introl eq_refl)).
    apply IH. intros r' I. apply H. right. exact I.
Qed.

Lemma select_count_insert (d : DB) (g u t cutoff : Z) :
  cutoff <= t -> 1 <= select_count (insert d g u t) (Some g) u cutoff.
Proof.
  intros L. unfold select_count, insert. cbn [rows].
  rewrite filter_app, length_app. cbn [filter where_clause guild_id user_id posted_at_utc].
  rewrite !Z.eqb_refl. destruct (Z.geb_spec t cutoff); [|lia].
  simpl. lia.
Qed.

Lemma window_start_mono (t1 t2 days : Z) :
  t1 <= t2 -> Clock.window_start t1 days <= Clock.window_start t2 days.
Proof.
  intros L. unfold Clock.window_start, Clock.int_timestamp.
  apply Z.quot_le_mono; lia.
Qed.

(** A reading within the window of a recorded one: its cutoff is not after
    the recorded second. *)
Lemma window_start_covers (t now days : Z) :
  now - Clock.timedelta days <= t ->
  Clock.window_start now days <= Clock.int_timestamp t.
Proof.
  intros L. unfold Clock.window_start, Clock.int_timestamp.
  apply Z.quot_le_mono; lia.
Qed.

Lemma delete_rows (d : DB) (g u cutoff : Z) :
  picked (fun r => ~ in_window g u cutoff r) (rows d)
         (rows (delete d (Some g) u cutoff)).
Proof.
  unfold delete. cbn [rows]. apply picked_filter. intros r.
  rewrite negb_true_iff, <- not_true_iff_false, where_clause_in_window. tauto.
Qed.

Lemma select_count_delete (d : DB) (g u c1 c2 : Z) :
  c1 <= c2 -> select_count (delete d (Some g) u c1) (Some g) u c2 < 1.
Proof.
  intros L. apply select_count_zero. unfold delete. cbn [rows]. intros r I.
  apply filter_In in I. destruct I as [_ N]. apply negb_true_iff in N.
  unfold where_clause in *.
  destruct (guild_id r =? g), (user_id r =? u); simpl in *; auto.
  destruct (Z.geb_spec (posted_at_utc r) c1); [discriminate|].
  destruct (Z.geb_spec (posted_at_utc r) c2); [lia|reflexivity].
Qed.

Lemma delete_again (d : DB) (g u c1 c2 : Z) :
  c1 <= c2 -> delete (delete d (Some g) u c1) (Some g) u c2 = delete d (Some g) u c1.
Proof.
  intros L. unfold delete. cbn [rows seq]. f_equal.
  induction (rows d) as [|r l IH]; [reflexivity|].
  cbn [filter]. destruct (where_clause (Some g) u c1 r) eqn:E1; cbn [negb]; [exact IH|].
  assert (E2 : where_clause (Some g) u c2 r = false).
  { clear IH. unfold where_clause in *.
    destruct (guild_id r =? g), (user_id r =? u); simpl in *; auto.
    destruct (Z.geb_spec (posted_at_utc r) c1); [discriminate|].
    destruct (Z.geb_spec (posted_at_utc r) c2); [lia|reflexivity]. }
  cbn [filter]. rewrite E2. cbn [negb]. f_equal. exact IH.
Qed.

(** C4.  The count of the pair since a cutoff is a non-negative integer,
    the exact number of rows of that guild and that user with
    [posted_at_utc >= cutoff]: the rows of the table with every other row
    struck out are that many, whatever else the table holds; and
    [count_within_window] returns that count at the cutoff it computes from
    the clock, leaving the table as it was. *)
Theorem select_count_exact (d : DB) (g u cutoff : Z) :
  0 <= select_count d (Some g) u cutoff
  /\ (exists sel, picked (in_window g u cutoff) (rows d) sel)
  /\ (forall sel, picked (in_window g u cutoff) (rows d) sel ->
        select_count d (Some g) u cutoff = Z.of_nat (List.length sel))
  /\ (forall env days w,
        Bot.count_raises env = None ->
        Bot.db w = d ->
        cutoff = Clock.window_start (Bot.now_datetime env) days ->
        Bot.count_within_window env (Some g) u days w
        = (Bot.Ok (select_count d (Some g) u cutoff), w)).
Proof.
  split; [apply select_count_nonneg|]. split; [|split].
  - eexists. apply picked_filter. intros r. apply where_clause_in_window.
  - apply select_count_picked.
  - intros env days w F <- ->. unfold Bot.count_within_window. rewrite F. reflexivity.
Qed.

Lemma select_count_exact_witness :
  let d := mkDB [mkRow 1 7 42 100; mkRow 2 7 42 900; mkRow 3 7 43 900;
                 mkRow 4 8 42 900; mkRow 5 7 42 500] 5 in
  picked (in_window 7 42 500) (rows d) [mkRow 2 7 42 900; mkRow 5 7 42 500]
  /\ select_count d (Some 7) 42 500 = 2.
Proof.
  intros d.
  assert (P : picked (in_window 7 42 500) (rows d) [mkRow 2 7 42 900; mkRow 5 7 42 500]).
  { unfold d, in_window. cbn [rows].
    apply picked_out; [cbn; lia|]. apply picked_in; [cbn; lia|].
    apply picked_out; [cbn; lia|]. apply picked_out; [cbn; lia|].
    apply picked_in; [cbn; lia|]. constructor. }
  split; [exact P|].
  exact (proj1 (proj2 (proj2 (select_count_exact d 7 42 500))) _ P).
Defined.

End StoreFacts.

(** ** The handlers *)

Section BotFacts.

Import Matcher Bot.
Open Scope Z_scope.

Lemma keeps_db_ret {A} (a : A) : keeps_db (ret a).
Proof. intros w. reflexivity. Qed.

Lemma keeps_db_raise {A} (e : exn) : keeps_db (@raise A e).
Proof. intros w. reflexivity. Qed.

Lemma keeps_db_call (a : action) (f : option exn) : keeps_db (call a f).
Proof. intros w. unfold call. destruct f; reflexivity. Qed.

Lemma keeps_db_bind {A B} (c : M A) (k : A -> M B) :
  keeps_db c -> (forall a, keeps_db (k a)) -> keeps_db (bind c k).
Proof.
  intros Hc Hk w. unfold bind. specialize (Hc w).
  destruct (c w) as [[a|e] w']; simpl in *; [|exact Hc].
  rewrite Hk. exact Hc.
Qed.

Lemma keeps_db_try_except {A} (c : M A) (h : exn -> M A) :
  keeps_db c -> (forall e, keeps_db (h e)) -> keeps_db (try_except c h).
Proof.
  intros Hc Hh w. unfold try_except. specialize (Hc w).
  destruct (c w) as [[a|e] w']; simpl in *; [exact Hc|].
  rewrite Hh. exact Hc.
Qed.

Lemma keeps_db_try_finally {A} (c : M A) (f : M unit) :
  keeps_db c -> keeps_db f -> keeps_db (try_finally c f).
Proof.
  intros Hc Hf w. unfold try_finally. specialize (Hc w).
  destruct (c w) as [r w']. specialize (Hf w').
  destruct (f w') as [[u|e] w'']; simpl in *; congruence.
Qed.

Lemma leaves_by_ret {A} (x : A) : leaves_by x (ret x).
Proof. intros w. left. reflexivity. Qed.

Lemma leaves_by_bind {A B} (x : B) (c : M A) (k : A -> M B) :
  (forall a, leaves_by x (k a)) -> leaves_by x (bind c k).
Proof.
  intros Hk w. unfold bind. destruct (c w) as [[a|e] w']; [apply Hk|].
  right. exists e. reflexivity.
Qed.

Ltac keeps :=
  repeat first
    [ apply keeps_db_ret | apply keeps_db_raise | apply keeps_db_call
    | apply keeps_db_bind | apply keeps_db_try_except | apply keeps_db_try_finally
    | match goal with
      | |- forall _, _ => intro
      | |- keeps_db (if ?b then _ else _) => destruct b
      end ].

(** The block branch does not touch the table. *)
Lemma block_keeps_db (env : Env) (m : Message) : keeps_db (block env m).
Proof. unfold block. cbv [DELETE_OFFENDING_MESSAGES DM_USER_ON_BLOCK]. keeps. Qed.

(** If the block branch returns, it returns [Blocked]. *)
Lemma block_leaves (env : Env) (m : Message) : leaves_by Blocked (block env m).
Proof.
  unfold block. apply leaves_by_bind. intros n.
  apply leaves_by_bind. intros _. apply leaves_by_bind. intros _. apply leaves_by_ret.
Qed.

(** It does return when the advisory calls fail in the ways it catches. *)
Lemma block_tolerated (env : Env) (m : Message) (w : World) :
  tolerated env = true -> fst (block env m w) = Ok Blocked.
Proof.
  unfold tolerated, caught_http, caught_forbidden. rewrite !andb_true_iff.
  intros [[[H1 H2] H3] H4]. unfold block, bind, try_except, call, ret. cbn.
  destruct (message_delete_raises env) as [[]|]; try discriminate; cbn;
    (destruct (channel_send_raises env) as [[]|]; try discriminate; cbn;
     try (destruct (warn_delete_raises env) as [[]|]; try discriminate; cbn);
     destruct (author_send_raises env) as [[]|]; try discriminate; reflexivity).
Qed.

(** The first call of the block branch is the deletion of the message. *)
Lemma block_deletes_first (env : Env) (m : Message) (d : Store.DB) :
  hd_error (trace (snd (block env m (start d)))) = Some (MessageDelete m).
Proof.
  unfold block, bind, try_except, call, ret, raise, start. cbn.
  destruct (message_delete_raises env) as [[]|]; cbn;
    try reflexivity;
    (destruct (channel_send_raises env) as [[]|]; cbn; try reflexivity;
     try (destruct (warn_delete_raises env) as [[]|]; cbn; try reflexivity);
     destruct (author_send_raises env) as [[]|]; reflexivity).
Qed.

Lemma enforce_count_fails (env : Env) (m : Message) (g : Z) (e : exn) (w : World) :
  count_raises env = Some e -> enforce env m g w = (Raise e, w).
Proof.
  intros F. unfold enforce, bind, count_within_window. rewrite F. reflexivity.
Qed.

Lemma enforce_block (env : Env) (m : Message) (g : Z) (w : World) :
  count_raises env = None ->
  1 <= Store.select_count (db w) (Some g) (author_id m)
         (Clock.window_start (now_datetime env) ROLLING_WINDOW_DAYS) ->
  enforce env m g w = block env m w.
Proof.
  intros F L. unfold enforce, bind, count_within_window. rewrite F.
  destruct (Z.geb_spec (Store.select_count (db w) (Some g) (author_id m)
                          (Clock.window_start (now_datetime env) ROLLING_WINDOW_DAYS)) 1);
    [reflexivity|lia].
Qed.

Lemma enforce_allow (env : Env) (m : Message) (g : Z) (w : World) :
  count_raises env = None ->
  Store.select_count (db w) (Some g) (author_id m)
    (Clock.window_start (now_datetime env) ROLLING_WINDOW_DAYS) < 1 ->
  enforce env m g w =
  match insert_raises env with
  | Some e => (Raise e, w)
  | None =>
      (Ok Allowed,
       mkWorld (Store.insert (db w) g (author_id m) (Clock.int_timestamp (now_time env)))
               (trace w))
  end.
Proof.
  intros F L. unfold enforce, bind, count_within_window, record_shorts_post. rewrite F.
  destruct (Z.geb_spec (Store.select_count (db w) (Some g) (author_id m)
                          (Clock.window_start (now_datetime env) ROLLING_WINDOW_DAYS)) 1);
    [lia|].
  destruct (insert_raises env); reflexivity.
Qed.

(** A message that reaches the quota: not from a bot or a webhook, with a
    Shorts link, in a guild. *)
Lemma on_message_enforces (env : Env) (m : Message) (g : Z) (w : World) :
  author_bot m = false ->
  truthy (webhook_id m) = false ->
  extract_shorts_links (Some (content m)) <> [] ->
  guild m = Some g ->
  on_message env m w = try_finally (enforce env m g) (process_commands env m) w.
Proof.
  intros B W L G. unfold on_message. rewrite B, W, G. cbn [orb].
  destruct (extract_shorts_links (Some (content m))); [congruence|reflexivity].
Qed.

Lemma try_finally_commands (env : Env) (m : Message) (c : M exit) (w : World) :
  try_finally c (process_commands env m) w =
  (match process_commands_raises env with
   | Some e => Raise e
   | None => fst (c w)
   end,
   mkWorld (db (snd (c w))) (trace (snd (c w)) ++ [ProcessCommands m])).
Proof.
  unfold try_finally, process_commands, call. destruct (c w) as [r w']. cbn.
  destruct (process_commands_raises env); reflexivity.
Qed.

End BotFacts.

Section BotClaims.

Import Matcher Bot.
Open Scope Z_scope.

(** Over the limit: nothing is recorded, and the handler leaves through
    the block branch. *)
Lemma on_message_blocks (env : Env) (m : Message) (g : Z) (d : Store.DB) :
  reaches_quota m g ->
  count_raises env = None ->
  1 <= Store.select_count d (Some g) (author_id m)
         (Clock.window_start (now_datetime env) ROLLING_WINDOW_DAYS) ->
  db (snd (on_message env m (start d))) = d
  /\ fst (on_message env m (start d)) <> Ok Allowed
  /\ hd_error (trace (snd (on_message env m (start d)))) = Some (MessageDelete m)
  /\ (tolerated env = true -> process_commands_raises env = None ->
      fst (on_message env m (start d)) = Ok Blocked).
Proof.
  intros (B & W & L & G) F N.
  rewrite (@on_message_enforces env m g (start d) B W L G), try_finally_commands.
  rewrite (@enforce_block env m g (start d) F N). cbn [fst snd db].
  split; [apply (block_keeps_db env m (start d))|]. split; [|split].
  - destruct (process_commands_raises env); [discriminate|].
    destruct (block_leaves env m (start d)) as [E|[e E]]; rewrite E; discriminate.
  - pose proof (block_deletes_first env m d) as H.
    destruct (trace (snd (block env m (start d)))); [discriminate|exact H].
  - intros T P. rewrite P. apply block_tolerated, T.
Qed.

(** Under the limit: one row is inserted and the handler falls off the end
    of the allow branch. *)
Lemma on_message_allows (env : Env) (m : Message) (g : Z) (d : Store.DB) :
  reaches_quota m g ->
  count_raises env = None ->
  insert_raises env = None ->
  Store.select_count d (Some g) (author_id m)
    (Clock.window_start (now_datetime env) ROLLING_WINDOW_DAYS) < 1 ->
  on_message env m (start d) =
  (match process_commands_raises env with
   | Some e => Raise e
   | None => Ok Allowed
   end,
   mkWorld (Store.insert d g (author_id m) (Clock.int_timestamp (now_time env)))
           [ProcessCommands m]).
Proof.
  intros (B & W & L & G) F I N.
  rewrite (@on_message_enforces env m g (start d) B W L G), try_finally_commands.
  rewrite (@enforce_allow env m g (start d) F N), I. reflexivity.
Qed.

(** C1.  For a message that reaches the quota, with the table answering:
    if the count of the pair since [now - W] is at least 1 the message is
    blocked and the table is left as it was; otherwise exactly one row for
    the pair at the clock's second is inserted and the message is allowed;
    and a second message of the pair counted within [W] of that insert is
    blocked and leaves the table unchanged. *)
Theorem on_message_quota (env : Env) (m : Message) (g : Z) (d : Store.DB) :
  reaches_quota m g ->
  count_raises env = None ->
  insert_raises env = None ->
  let n := Store.select_count d (Some g) (author_id m)
             (Clock.window_start (now_datetime env) ROLLING_WINDOW_DAYS) in
  let out := on_message env m (start d) in
  (1 <= n ->
     db (snd out) = d
     /\ fst out <> Ok Allowed
     /\ (tolerated env = true -> process_commands_raises env = None ->
         fst out = Ok Blocked))
  /\ (n < 1 ->
        db (snd out)
        = Store.insert d g (author_id m) (Clock.int_timestamp (now_time env))
        /\ fst out <> Ok Blocked
        /\ (process_commands_raises env = None -> fst out = Ok Allowed)
        /\ forall env' m',
             reaches_quota m' g ->
             author_id m' = author_id m ->
             count_raises env' = None ->
             now_datetime env' - Clock.timedelta ROLLING_WINDOW_DAYS <= now_time env ->
             let out' := on_message env' m' (start (db (snd out))) in
             db (snd out') = db (snd out)
             /\ fst out' <> Ok Allowed
             /\ (tolerated env' = true -> process_commands_raises env' = None ->
                 fst out' = Ok Blocked)).
Proof.
  intros R F I n out. split; intros N.
  - destruct (@on_message_blocks env m g d R F N) as (H1 & H2 & _ & H4). auto.
  - unfold out. rewrite (@on_message_allows env m g d R F I N). cbn [fst snd db].
    split; [reflexivity|]. split; [destruct (process_commands_raises env); discriminate|].
    split; [intros ->; reflexivity|].
    intros env' m' R' A F' Wn.
    assert (N' : 1 <= Store.select_count
                        (Store.insert d g (author_id m) (Clock.int_timestamp (now_time env)))
                        (Some g) (author_id m')
                        (Clock.window_start (now_datetime env') ROLLING_WINDOW_DAYS)).
    { rewrite A. apply select_count_insert, window_start_covers, Wn. }
    destruct (@on_message_blocks env' m' g _ R' F' N') as (H1 & H2 & _ & H4). auto.
Qed.

Lemma on_message_quota_witness :
  fst (on_message (calm T0 (T0 + 5)) ONE_LINK (start Store.empty)) = Ok Allowed
  /\ fst (on_message (calm (T0 + 10) (T0 + 15)) TWO_LINKS
            (start (db (snd (on_message (calm T0 (T0 + 5)) ONE_LINK (start Store.empty))))))
     = Ok Blocked.
Proof.
  assert (R1 : reaches_quota ONE_LINK 7)
    by (repeat split; try reflexivity; vm_compute; discriminate).
  assert (R2 : reaches_quota TWO_LINKS 7)
    by (repeat split; try reflexivity; vm_compute; discriminate).
  pose proof (@on_message_quota (calm T0 (T0 + 5)) ONE_LINK 7 Store.empty R1 eq_refl eq_refl)
    as [_ H].
  destruct (H ltac:(vm_compute; reflexivity)) as (_ & _ & A & S).
  split; [exact (A eq_refl)|].
  destruct (S (calm (T0 + 10) (T0 + 15)) TWO_LINKS R2 eq_refl eq_refl
              ltac:(vm_compute; discriminate)) as (_ & _ & Bk).
  exact (Bk eq_refl eq_refl).
Defined.

(** C5.  When the count, or the insert after a count of zero, raises, the
    handler raises (that error, unless the command processing of the
    [finally] raises one of its own), the table is left as it was, and the
    handler made no call but the command processing: neither the allow
    exit nor the block branch was taken. *)
Theorem on_message_store_failure (env : Env) (m : Message) (g : Z) (d : Store.DB) (e : exn) :
  reaches_quota m g ->
  count_raises env = Some e
  \/ (count_raises env = None
      /\ Store.select_count d (Some g) (author_id m)
           (Clock.window_start (now_datetime env) ROLLING_WINDOW_DAYS) < 1
      /\ insert_raises env = Some e) ->
  on_message env m (start d) =
  (Raise (match process_commands_raises env with
          | Some e' => e'
          | None => e
          end),
   mkWorld d [ProcessCommands m]).
Proof.
  intros (B & W & L & G) H.
  rewrite (@on_message_enforces env m g (start d) B W L G), try_finally_commands.
  destruct H as [F|(F & N & I)].
  - rewrite (@enforce_count_fails env m g e (start d) F). cbn.
    destruct (process_commands_raises env); reflexivity.
  - rewrite (@enforce_allow env m g (start d) F N), I. cbn.
    destruct (process_commands_raises env); reflexivity.
Qed.

Lemma on_message_store_failure_witness :
  on_message (mkEnv T0 T0 (Some SqliteError) None None None None None None None None)
             ONE_LINK (start SAMPLE_DB)
  = (Raise SqliteError, mkWorld SAMPLE_DB [ProcessCommands ONE_LINK]).
Proof.
  apply (@on_message_store_failure
           (mkEnv T0 T0 (Some SqliteError) None None None None None None None None)
           ONE_LINK 7 SAMPLE_DB SqliteError).
  - repeat split; try reflexivity; vm_compute; discriminate.
  - left. reflexivity.
Defined.

(** C7.  An allowed message adds exactly one row, however many links it
    holds. *)
Theorem on_message_one_row_per_message
        (env : Env) (m : Message) (g : Z) (d : Store.DB) (k : nat) :
  reaches_quota m g ->
  List.length (extract_shorts_links (Some (content m))) = S k ->
  count_raises env = None ->
  insert_raises env = None ->
  Store.select_count d (Some g) (author_id m)
    (Clock.window_start (now_datetime env) ROLLING_WINDOW_DAYS) < 1 ->
  Store.rows (db (snd (on_message env m (start d))))
  = Store.rows d ++ [Store.mkRow (Store.next_rowid d) g (author_id m)
                                 (Clock.int_timestamp (now_time env))]
  /\ List.length (Store.rows (db (snd (on_message env m (start d)))))
     = S (List.length (Store.rows d)).
Proof.
  intros R _ F I N. rewrite (@on_message_allows env m g d R F I N).
  cbn [snd db Store.insert Store.rows]. split; [reflexivity|].
  rewrite length_app. simpl. lia.
Qed.

Lemma on_message_one_row_per_message_witness :
  List.length (extract_shorts_links (Some (content TWO_LINKS))) = 2%nat
  /\ List.length (Store.rows (db (snd (on_message (calm T0 T0) TWO_LINKS (start Store.empty)))))
     = 1%nat.
Proof.
  split; [vm_compute; reflexivity|].
  apply (@on_message_one_row_per_message (calm T0 T0) TWO_LINKS 7 Store.empty 1).
  - repeat split; try reflexivity; vm_compute; discriminate.
  - vm_compute. reflexivity.
  - reflexivity.
  - reflexivity.
  - vm_compute. reflexivity.
Defined.

(** C9.  A message whose author is a bot, or that comes from a webhook,
    makes the handler return at once: whatever the text and whatever the
    outside would answer, the table and the trace are as they were (no
    count, no insert, no call). *)
Theorem on_message_ignores_bots (env : Env) (m : Message) (w : World) :
  author_bot m = true \/ (exists z, webhook_id m = Some z /\ z <> 0) ->
  on_message env m w = (Ok Ignored, w).
Proof.
  intros H. unfold on_message.
  assert (E : author_bot m || truthy (webhook_id m) = true).
  { destruct H as [->|(z & -> & Z)]; [reflexivity|].
    apply orb_true_iff. right. simpl. destruct (Z.eqb_spec z 0); [contradiction|reflexivity]. }
  rewrite E. reflexivity.
Qed.

Lemma on_message_ignores_bots_witness :
  on_message (calm T0 T0) FROM_WEBHOOK (start SAMPLE_DB) = (Ok Ignored, start SAMPLE_DB).
Proof.
  apply on_message_ignores_bots. right. exists 99. split; [reflexivity|lia].
Defined.

(** C10.  A message with a Shorts link and no guild: the count is not
    run, nothing is recorded, nothing is deleted or sent, and the one call
    made is the command processing of that message. *)
Theorem on_message_no_guild (env : Env) (m : Message) (d : Store.DB) :
  author_bot m = false ->
  truthy (webhook_id m) = false ->
  extract_shorts_links (Some (content m)) <> [] ->
  guild m = None ->
  on_message env m (start d) =
  (match process_commands_raises env with
   | Some e => Raise e
   | None => Ok NoGuild
   end,
   mkWorld d [ProcessCommands m]).
Proof.
  intros B W L G. unfold on_message. rewrite B, W, G. cbn [orb].
  destruct (extract_shorts_links (Some (content m))); [congruence|].
  unfold bind, process_commands, call, ret, start. cbn.
  destruct (process_commands_raises env); reflexivity.
Qed.

Lemma on_message_no_guild_witness :
  on_message (calm T0 T0) DIRECT_MESSAGE (start SAMPLE_DB)
  = (Ok NoGuild, mkWorld SAMPLE_DB [ProcessCommands DIRECT_MESSAGE]).
Proof.
  apply (@on_message_no_guild (calm T0 T0) DIRECT_MESSAGE SAMPLE_DB);
    try reflexivity.
  vm_compute. discriminate.
Defined.

Lemma shorts_reset_me_db (env : Env) (i : Interaction) (d : Store.DB) :
  delete_raises env = None ->
  db (snd (shorts_reset_me env i (start d)))
  = Store.delete d (interaction_guild_id i) (interaction_user i)
      (Clock.window_start (now_datetime env) ROLLING_WINDOW_DAYS).
Proof.
  intros F. unfold shorts_reset_me, bind, call, start. rewrite F. cbn.
  destruct (response_send_raises env); reflexivity.
Qed.

(** C6.  The reset removes exactly the rows of the pair with
    [posted_at_utc] at or after the cutoff and keeps every other row; a
    second reset, at the same or a later reading, changes nothing more; and
    a message of the pair right after the reset is allowed. *)
Theorem shorts_reset_me_spec (env : Env) (i : Interaction) (g : Z) (d : Store.DB) :
  interaction_guild_id i = Some g ->
  delete_raises env = None ->
  let u := interaction_user i in
  let cutoff := Clock.window_start (now_datetime env) ROLLING_WINDOW_DAYS in
  let d1 := db (snd (shorts_reset_me env i (start d))) in
  Store.picked (fun r => ~ Store.in_window g u cutoff r) (Store.rows d) (Store.rows d1)
  /\ (forall env2,
        delete_raises env2 = None ->
        now_datetime env <= now_datetime env2 ->
        db (snd (shorts_reset_me env2 i (start d1))) = d1)
  /\ (forall env3 m,
        reaches_quota m g ->
        author_id m = u ->
        count_raises env3 = None ->
        insert_raises env3 = None ->
        process_commands_raises env3 = None ->
        now_datetime env <= now_datetime env3 ->
        fst (on_message env3 m (start d1)) = Ok Allowed
        /\ db (snd (on_message env3 m (start d1)))
           = Store.insert d1 g u (Clock.int_timestamp (now_time env3))).
Proof.
  intros G F u cutoff d1. unfold d1. rewrite (@shorts_reset_me_db env i d F), G.
  fold u. fold cutoff. split; [apply delete_rows|]. split.
  - intros env2 F2 L. rewrite (@shorts_reset_me_db env2 i _ F2), G. fold u.
    apply delete_again, window_start_mono, L.
  - intros env3 m R A C I P L.
    assert (N : Store.select_count (Store.delete d (Some g) u cutoff) (Some g) (author_id m)
                  (Clock.window_start (now_datetime env3) ROLLING_WINDOW_DAYS) < 1).
    { rewrite A. apply select_count_delete, window_start_mono, L. }
    rewrite (@on_message_allows env3 m g _ R C I N), P, A. split; reflexivity.
Qed.

Lemma shorts_reset_me_spec_witness :
  Store.select_count SAMPLE_DB (Some 7) 42 (Clock.window_start T0 ROLLING_WINDOW_DAYS) = 1
  /\ Store.rows (db (snd (shorts_reset_me (calm T0 T0) RESET_BY_42 (start SAMPLE_DB))))
     = [Store.mkRow 1 7 42 1699000000; Store.mkRow 3 7 43 1699999000]
  /\ fst (on_message (calm (T0 + 1) (T0 + 2)) ONE_LINK
            (start (db (snd (shorts_reset_me (calm T0 T0) RESET_BY_42 (start SAMPLE_DB))))))
     = Ok Allowed.
Proof.
  split; [vm_compute; reflexivity|]. split; [vm_compute; reflexivity|].
  destruct (@shorts_reset_me_spec (calm T0 T0) RESET_BY_42 7 SAMPLE_DB eq_refl eq_refl)
    as (_ & _ & H).
  apply (H (calm (T0 + 1) (T0 + 2)) ONE_LINK); try reflexivity.
  - repeat split; try reflexivity; vm_compute; discriminate.
  - vm_compute. discriminate.
Defined.

End BotClaims.

(** ** Handlers running together *)

Section TaskFacts.

Import Bot Tasks.
Open Scope Z_scope.

(** The two steps of a task, taken back to back, are the [try] body of
    [on_message] on an outside that does not raise. *)
Lemma steps_are_enforce (m : Message) (g t1 t2 : Z) (d : Store.DB) :
  let '(d1, p1) := step g (author_id m) t1 d AtCount in
  let '(d2, p2) := step g (author_id m) t2 d1 p1 in
  db (snd (enforce (calm t1 t2) m g (start d))) = d2
  /\ Done (match fst (enforce (calm t1 t2) m g (start d)) with
           | Ok e => e
           | Raise _ => Ignored
           end) = p2.
Proof.
  unfold step.
  destruct (Z.geb_spec (Store.select_count d (Some g) (author_id m)
                          (Clock.window_start t1 ROLLING_WINDOW_DAYS)) 1) as [L|L].
  - rewrite (@enforce_block (calm t1 t2) m g (start d) eq_refl L).
    split; [apply (block_keeps_db (calm t1 t2) m (start d))|].
    rewrite (@block_tolerated (calm t1 t2) m (start d) eq_refl). reflexivity.
  - rewrite (@enforce_allow (calm t1 t2) m g (start d) eq_refl L). split; reflexivity.
Qed.







End TaskFacts.

(** * Further facts *)

(** ** More on the scan *)

Section ScanFacts.

Import Matcher Scan.

Lemma match_at_Some (r : regex) (s m rest : text) :
  match_at r s = Some (m, rest) -> s = m ++ rest /\ lang r m.
Proof.
  unfold match_at. destruct (run r s) as [|x l] eqn:R; [discriminate|].
  intros E. injection E as <- <-.
  assert (I : In x (run r s)) by (rewrite R; left; reflexivity).
  apply run_spec in I. destruct I as (w & -> & L).
  rewrite length_app, Nat.add_sub, firstn_app, Nat.sub_diag, firstn_all.
  simpl. rewrite app_nil_r. auto.
Qed.

Lemma scanned_cons (P : text -> text -> Prop) (c : N) (s : text) (ms : list text) :
  scanned P s ms -> scanned P (c :: s) ms.
Proof.
  intros H. inversion H; subst; [constructor|].
  apply (@scanned_match P (c :: gap) _ _ _ H0 H1).
Qed.

(** The scan, started [k] characters into the text, lays its matches out
    one after the other in what is left. *)
Lemma findall_scanned (r : regex) (P : text -> text -> Prop) :
  (forall s m rest, match_at r s = Some (m, rest) -> P m rest) ->
  forall s k, (k <= List.length s)%nat -> scanned P (skipn k s) (findall r k s).
Proof.
  intros HP. induction s as [|c s IH]; intros k L.
  - destruct k; [|simpl in L; lia]. simpl.
    destruct (match_at r []) as [[m rest]|] eqn:M; [|constructor].
    destruct (match_at_Some _ _ M) as [E _]. symmetry in E.
    apply app_eq_nil in E. destruct E as [-> ->].
    apply (@scanned_match P [] [] [] []); [exact (HP _ _ _ M)|constructor].
  - destruct k; simpl.
    + destruct (match_at r (c :: s)) as [[m rest]|] eqn:M.
      * destruct (match_at_Some _ _ M) as [E _]. pose proof (HP _ _ _ M) as Pm.
        destruct m as [|c' m]; simpl in E.
        -- subst rest. apply (@scanned_match P [] [] (c :: s)); [exact Pm|].
           apply scanned_cons. apply (IH 0%nat). lia.
        -- injection E as <- ->.
           apply (@scanned_match P [] (c :: m) rest); [exact Pm|].
           simpl. specialize (IH (List.length m)).
           rewrite skipn_app, Nat.sub_diag, skipn_all in IH.
           simpl in IH. apply IH. rewrite length_app. lia.
      * apply scanned_cons. apply (IH 0%nat). lia.
    + apply IH. simpl in L. lia.
Qed.

Lemma in_ignore_TAIL_SET (c : N) : in_ignore TAIL_SET c = in_tail_set c.
Proof. reflexivity. Qed.






Lemma head_ok_first (Q : text -> Prop) (f : text -> list text) (y : text) (l : list text) :
  f y <> [] -> head_ok Q (f y) -> head_ok Q (flat_map f (y :: l)).
Proof.
  intros N H. simpl. destruct (f y); [congruence|exact H].
Qed.

Lemma head_ok_flat_map (Q : text -> Prop) (f : text -> list text) (l : list text) :
  (forall x, head_ok Q (f x)) -> head_ok Q (flat_map f l).
Proof.
  intros H. induction l as [|x l IH]; simpl; [exact I|].
  specialize (H x). destruct (f x); [exact IH|exact H].
Qed.

Lemma rep_zero_nonempty (p : N -> bool) (s : text) : rep p 0 s <> [].
Proof.
  destruct s as [|c s]; simpl; [discriminate|].
  intros E. apply app_eq_nil in E. destruct E as [_ E]. discriminate.
Qed.

(** A greedy repetition first stops where the set stops. *)
Lemma rep_head (p : N -> bool) (s : text) :
  forall n, head_ok (fun y => match y with
                              | [] => True
                              | c :: _ => p c = false
                              end) (rep p n s).
Proof.
  induction s as [|c s IH]; intros n.
  - destruct n; simpl; exact I.
  - cbn [rep]. destruct (p c) eqn:Pc.
    + specialize (IH (Nat.pred n)).
      destruct (rep p (Nat.pred n) s) as [|y l] eqn:R.
      * destruct n; [exfalso; exact (rep_zero_nonempty p s R)|exact I].
      * exact IH.
    + destruct n; simpl; [exact Pc|exact I].
Qed.

Lemma tail_head (y : text) :
  match y with
  | [] => True
  | c :: _ => in_ignore ID_SET c = false
  end ->
  run (Opt (Cat (Chr (in_ignore TAIL_SET)) (Rep 0 any_no_newline))) y <> []
  /\ head_ok stops_cleanly
       (run (Opt (Cat (Chr (in_ignore TAIL_SET)) (Rep 0 any_no_newline))) y).
Proof.
  intros Hy. split.
  - cbn [run]. intros E. apply app_eq_nil in E. destruct E as [_ E]. discriminate.
  - cbn [run]. destruct y as [|c y]; [exact I|].
    destruct (in_ignore TAIL_SET c) eqn:T.
    + cbn [flat_map]. rewrite app_nil_r.
      pose proof (rep_head any_no_newline y 0) as H.
      destruct (rep any_no_newline 0 y) as [|z l] eqn:R;
        [exfalso; exact (rep_zero_nonempty _ _ R)|].
      cbn [app head_ok] in *. destruct z as [|c' z]; [exact I|].
      left. unfold any_no_newline in H. apply negb_false_iff, N.eqb_eq in H. exact H.
    + cbn [flat_map app head_ok stops_cleanly]. right.
      rewrite <- in_ignore_ID_SET_chars, <- in_ignore_TAIL_SET. auto.
Qed.

Lemma match_stops_cleanly (s m rest : text) :
  match_at SHORTS_REGEX s = Some (m, rest) -> stops_cleanly rest.
Proof.
  unfold match_at. destruct (run SHORTS_REGEX s) as [|x l] eqn:R; [discriminate|].
  intros E. injection E as _ <-.
  assert (H : head_ok stops_cleanly (run SHORTS_REGEX s)).
  { unfold SHORTS_REGEX, shorts_pattern.
    do 6 (cbn [run]; apply head_ok_flat_map; intros ?).
    cbn [run].
    pose proof (rep_head (in_ignore ID_SET) x5 5) as Hr.
    destruct (rep (in_ignore ID_SET) 5 x5) as [|y l'] eqn:Ry; [exact I|].
    cbn [head_ok] in Hr. destruct (tail_head y Hr) as [Hn Hh].
    apply head_ok_first; assumption. }
  rewrite R in H. exact H.
Qed.

(** X2.  A match is never cut short: what follows it in the text is the
    end, a line feed, or a character that is neither of the identifier's
    set nor one of [/ ? # &]. *)
Theorem extract_shorts_links_greedy (t : option text) :
  scanned (fun _ rest => stops_cleanly rest) (or_empty t) (extract_shorts_links t).
Proof.
  unfold extract_shorts_links.
  apply (@findall_scanned SHORTS_REGEX _ match_stops_cleanly (or_empty t) 0%nat).
  lia.
Qed.

Lemma rep_map (f : N -> N) (p : N -> bool) :
  (forall c, p (f c) = p c) ->
  forall s n, rep p n (map f s) = map (map f) (rep p n s).
Proof.
  intros Hp. induction s as [|c s IH]; intros n.
  - destruct n; reflexivity.
  - cbn [map rep]. rewrite Hp, map_app. f_equal.
    + destruct (p c); [apply IH|reflexivity].
    + destruct n; reflexivity.
Qed.

Lemma run_map (f : N -> N) (r : regex) :
  respects f r -> forall s, run r (map f s) = map (map f) (run r s).
Proof.
  induction r as [|p|r1 IH1 r2 IH2|r1 IH1|n p]; cbn [respects run]; intros H s.
  - reflexivity.
  - destruct s as [|c s]; [reflexivity|]. cbn [map]. rewrite H.
    destruct (p c); reflexivity.
  - destruct H as [H1 H2]. rewrite (IH1 H1).
    induction (run r1 s) as [|x l IHl]; [reflexivity|].
    cbn [map flat_map]. rewrite map_app, (IH2 H2), IHl. reflexivity.
  - rewrite map_app, (IH1 H). reflexivity.
  - apply rep_map, H.
Qed.

Lemma match_at_map (f : N -> N) (r : regex) (s : text) :
  respects f r ->
  match_at r (map f s)
  = option_map (fun mr => (map f (fst mr), map f (snd mr))) (match_at r s).
Proof.
  intros H. unfold match_at. rewrite (@run_map f r H).
  destruct (run r s) as [|x l]; [reflexivity|].
  cbn [map option_map fst snd]. rewrite !length_map, firstn_map. reflexivity.
Qed.

Lemma findall_map (f : N -> N) (r : regex) :
  respects f r ->
  forall s k, findall r k (map f s) = map (map f) (findall r k s).
Proof.
  intros H. induction s as [|c s IH]; intros k.
  - destruct k; [|reflexivity]. cbn [map findall].
    change (@nil N) with (map f []) at 1. rewrite (@match_at_map f r [] H).
    destruct (match_at r []) as [[m rest]|]; reflexivity.
  - destruct k; cbn [map findall]; [|apply IH].
    change (f c :: map f s) with (map f (c :: s)). rewrite (@match_at_map f r (c :: s) H).
    destruct (match_at r (c :: s)) as [[m rest]|]; cbn [option_map fst snd map].
    + rewrite length_map, IH. reflexivity.
    + apply IH.
Qed.

Lemma respects_lits (f : N -> N) (lit : N -> N -> bool) (l : text) :
  (forall a c, lit a (f c) = lit a c) -> respects f (lits lit l).
Proof.
  intros H. induction l as [|a l IH]; cbn [lits respects]; auto.
Qed.

Ltac cases :=
  repeat match goal with
         | |- context [N.leb ?a ?b] =>
             destruct (N.leb_spec a b); try (exfalso; lia)
         | |- context [N.eqb ?a ?b] =>
             destruct (N.eqb_spec a b); try (exfalso; lia)
         end;
  cbn [andb orb negb existsb].

Lemma lower_of_upper (c : N) :
  sre_lower_unicode (ascii_upper c) = sre_lower_unicode c.
Proof.
  unfold ascii_upper.
  destruct ((97 <=? c) && (c <=? 122))%N eqn:E; [|reflexivity].
  apply andb_true_iff in E. destruct E as [E1 E2].
  apply N.leb_le in E1, E2. unfold sre_lower_unicode. cases; lia.
Qed.

Lemma lower_of_lower (c : N) :
  sre_lower_unicode (ascii_lower c) = sre_lower_unicode c.
Proof.
  unfold ascii_lower.
  destruct ((65 <=? c) && (c <=? 90))%N eqn:E; [|reflexivity].
  apply andb_true_iff in E. destruct E as [E1 E2].
  apply N.leb_le in E1, E2. unfold sre_lower_unicode. cases; lia.
Qed.

(** A change of ASCII case in the text is not seen by the compiled
    pattern. *)
Lemma respects_case (f : N -> N) :
  (forall c, sre_lower_unicode (f c) = sre_lower_unicode c) ->
  (forall c, iscased c = false -> f c = c) ->
  (forall c, iscased c = true -> iscased (f c) = true) ->
  respects f SHORTS_REGEX.
Proof.
  intros Hl Hu Hc.
  assert (Same : forall (p : N -> bool),
             (forall c, iscased c = true -> p c = false) ->
             forall c, p (f c) = p c).
  { intros p Hp c. destruct (iscased c) eqn:E.
    - rewrite (Hp c E), (Hp (f c) (Hc c E)). reflexivity.
    - rewrite (Hu c E). reflexivity. }
  assert (Lit : forall a c, literal_ignore a (f c) = literal_ignore a c).
  { intros a c. unfold literal_ignore. destruct (iscased a) eqn:Ea.
    - rewrite Hl. reflexivity.
    - apply Same. intros x Ex. apply N.eqb_neq. intros ->. congruence. }
  unfold SHORTS_REGEX, shorts_pattern. cbn [respects].
  repeat split; try (cbn [respects]; intros c; apply Lit); try exact I.
  - intros c. rewrite !in_ignore_ID_SET, Hl. reflexivity.
  - apply Same. intros x Ex. rewrite in_ignore_TAIL_SET. unfold in_tail_set, mem.
    unfold iscased in Ex. cbn [existsb].
    destruct (N.eqb_spec x 47), (N.eqb_spec x 63), (N.eqb_spec x 35), (N.eqb_spec x 38);
      subst; try discriminate; reflexivity.
  - intros c. unfold any_no_newline. f_equal. apply (Same (fun x => x =? 10)%N).
    intros x Ex. destruct (N.eqb_spec x 10); [subst; discriminate|reflexivity].
Qed.

(** X3.  Changing the ASCII case of a text changes the matches only by
    case: upper-casing (or lower-casing) the text and then scanning gives
    the matches of the text, upper-cased (or lower-cased). *)
Theorem extract_shorts_links_case (t : text) :
  extract_shorts_links (Some (map ascii_upper t))
  = map (map ascii_upper) (extract_shorts_links (Some t))
  /\ extract_shorts_links (Some (map ascii_lower t))
     = map (map ascii_lower) (extract_shorts_links (Some t)).
Proof.
  unfold extract_shorts_links, or_empty. split; apply findall_map, respects_case.
  - apply lower_of_upper.
  - intros c E. unfold ascii_upper. unfold iscased in E.
    apply orb_false_iff in E. destruct E as [_ E]. rewrite E. reflexivity.
  - intros c E. unfold ascii_upper.
    destruct ((97 <=? c) && (c <=? 122))%N eqn:L; [|exact E].
    apply andb_true_iff in L. destruct L as [L1 L2]. apply N.leb_le in L1, L2.
    unfold iscased. cases; reflexivity.
  - apply lower_of_lower.
  - intros c E. unfold ascii_lower. unfold iscased in E.
    apply orb_false_iff in E. destruct E as [E _]. rewrite E. reflexivity.
  - intros c E. unfold ascii_lower.
    destruct ((65 <=? c) && (c <=? 90))%N eqn:L; [|exact E].
    apply andb_true_iff in L. destruct L as [L1 L2]. apply N.leb_le in L1, L2.
    unfold iscased. cases; reflexivity.
Qed.

End ScanFacts.

(** ** More on the table *)

Section KeyFacts.

Import Store Keys.
Open Scope Z_scope.

(** X4.  Insert, then count: the count of the inserted pair goes up by
    exactly one at every cutoff not after the inserted second, and no other
    count moves. *)
Theorem select_count_after_insert (d : DB) (g u t g' u' cutoff : Z) :
  select_count (insert d g u t) (Some g') u' cutoff
  = select_count d (Some g') u' cutoff
    + (if (g =? g') && (u =? u') && (t >=? cutoff) then 1 else 0).
Proof.
  unfold select_count, insert. cbn [rows].
  rewrite filter_app, length_app, Nat2Z.inj_add. f_equal.
  cbn [filter where_clause guild_id user_id posted_at_utc].
  destruct ((g =? g') && (u =? u') && (t >=? cutoff)); reflexivity.
Qed.

Lemma increasing_weaken (lo lo' : Z) (l : list Row) :
  lo' <= lo -> increasing lo l -> increasing lo' l.
Proof. destruct l; simpl; [auto|]. intros L [H1 H2]. split; [lia|exact H2]. Qed.

Lemma increasing_above (l : list Row) :
  forall lo r, increasing lo l -> In r l -> lo < id r.
Proof.
  induction l as [|x l IH]; intros lo r H I; [destruct I|].
  destruct H as [H1 H2]. destruct I as [<-|I]; [exact H1|].
  specialize (IH _ _ H2 I). lia.
Qed.

Lemma increasing_filter (f : Row -> bool) (l : list Row) :
  forall lo, increasing lo l -> increasing lo (filter f l).
Proof.
  induction l as [|x l IH]; intros lo H; [exact H|].
  destruct H as [H1 H2]. cbn [filter]. destruct (f x).
  - split; [exact H1|apply IH, H2].
  - apply (@increasing_weaken (id x)); [lia|apply IH, H2].
Qed.

Lemma increasing_snoc (l : list Row) (r : Row) :
  forall lo, increasing lo l -> lo < id r -> (forall x, In x l -> id x < id r) ->
             increasing lo (l ++ [r]).
Proof.
  induction l as [|x l IH]; intros lo H L A; simpl; [auto|].
  destruct H as [H1 H2]. split; [exact H1|].
  apply IH; [exact H2|apply A; left; reflexivity|].
  intros y I. apply A. right. exact I.
Qed.

Lemma max_rowid_bound (l : list Row) (b : Z) :
  0 <= b -> (forall r, In r l -> id r <= b) -> max_rowid l <= b.
Proof.
  intros B. induction l as [|x l IH]; intros H; simpl; [exact B|].
  apply Z.max_lub; [apply H; left; reflexivity|].
  apply IH. intros r I. apply H. right. exact I.
Qed.

Lemma well_keyed_next (d : DB) : well_keyed d -> next_rowid d = seq d + 1.
Proof.
  intros (S & _ & B). unfold next_rowid.
  rewrite Z.max_l; [reflexivity|]. apply max_rowid_bound; assumption.
Qed.

(** X5.  The keys of the table: starting from the empty table, every
    INSERT and DELETE leaves positive keys in increasing order (so no two
    rows share a key); an inserted row takes a key above every key of the
    table, and a DELETE does not lower the next key, so the key of a
    deleted row is never handed out again. *)
Theorem well_keyed_kept (d : DB) (g u t : Z) (g' : option Z) (u' cutoff : Z) :
  well_keyed empty
  /\ (well_keyed d ->
      well_keyed (insert d g u t)
      /\ well_keyed (delete d g' u' cutoff)
      /\ (forall r, In r (rows d) -> id r < next_rowid d)
      /\ next_rowid (delete d g' u' cutoff) = next_rowid d).
Proof.
  split; [repeat split; simpl; try lia; intros r []|].
  intros W. pose proof (well_keyed_next W) as N.
  destruct W as (S & I & B).
  assert (Wd : well_keyed (delete d g' u' cutoff)).
  { unfold delete. repeat split; cbn [rows seq]; [exact S|apply increasing_filter, I|].
    intros r F. apply filter_In in F. apply B, F. }
  split; [|split; [exact Wd|split]].
  - unfold insert. rewrite N. repeat split; cbn [rows seq]; [lia| |].
    + apply increasing_snoc; [exact I|simpl; lia|].
      intros x Ix. specialize (B x Ix). simpl. lia.
    + intros r Ir. apply in_app_or in Ir. destruct Ir as [Ir|[<-|[]]].
      * specialize (B r Ir). lia.
      * simpl. lia.
  - intros r Ir. specialize (B r Ir). lia.
  - rewrite (well_keyed_next Wd), N. reflexivity.
Qed.

Lemma well_keyed_kept_witness :
  well_keyed Bot.SAMPLE_DB
  /\ well_keyed (insert (delete Bot.SAMPLE_DB (Some 7) 42 0) 7 42 1700000000)
  /\ next_rowid (delete Bot.SAMPLE_DB (Some 7) 42 0) = 4.
Proof.
  assert (W : well_keyed Bot.SAMPLE_DB).
  { repeat split; simpl; try lia.
    intros r [<-|[<-|[<-|[]]]]; simpl; lia. }
  split; [exact W|].
  destruct (proj2 (well_keyed_kept Bot.SAMPLE_DB 7 42 0 (Some 7) 42 0) W)
    as (_ & Wd & _ & E).
  split; [|rewrite E; reflexivity].
  exact (proj1 (proj2 (well_keyed_kept (delete Bot.SAMPLE_DB (Some 7) 42 0)
                         7 42 1700000000 None 0 0) Wd)).
Defined.

Lemma spaced_filter (f : Row -> bool) (l : list Row) :
  spaced l -> spaced (filter f l).
Proof.
  induction l as [|x l IH]; intros H; [exact H|].
  destruct H as [H1 H2]. cbn [filter]. destruct (f x); [|apply IH, H2].
  split; [|apply IH, H2]. intros r' I. apply filter_In in I. apply H1, I.
Qed.

Lemma spaced_snoc (l : list Row) (r : Row) :
  spaced l ->
  (forall x, In x l -> same_pair x r -> posted_at_utc x + WINDOW_SECONDS < posted_at_utc r) ->
  spaced (l ++ [r]).
Proof.
  induction l as [|x l IH]; intros H A; simpl.
  - split; [intros r' []|exact I].
  - destruct H as [H1 H2]. split.
    + intros r' Ir. apply in_app_or in Ir. destruct Ir as [Ir|[<-|[]]].
      * apply H1, Ir.
      * apply A. left. reflexivity.
    + apply IH; [exact H2|]. intros y Iy. apply A. right. exact Iy.
Qed.

(** With rows a window apart and none from the future, at most one row of
    a pair is in the window. *)
Lemma spaced_count (l : list Row) (g u now : Z) :
  spaced l ->
  (forall r, In r l -> posted_at_utc r <= now) ->
  (List.length (filter (where_clause (Some g) u (now - WINDOW_SECONDS)) l) <= 1)%nat.
Proof.
  induction l as [|x l IH]; intros S B; [simpl; lia|].
  destruct S as [S1 S2]. cbn [filter].
  assert (IHl := IH S2 (fun r I => B r (or_intror I))).
  destruct (where_clause (Some g) u (now - WINDOW_SECONDS) x) eqn:E; [|exact IHl].
  assert (Z : filter (where_clause (Some g) u (now - WINDOW_SECONDS)) l = []).
  { destruct (filter (where_clause (Some g) u (now - WINDOW_SECONDS)) l) as [|y l'] eqn:F;
      [reflexivity|exfalso].
    assert (Iy : In y (filter (where_clause (Some g) u (now - WINDOW_SECONDS)) l))
      by (rewrite F; left; reflexivity).
    apply filter_In in Iy. destruct Iy as [Iy Ey].
    apply where_clause_in_window in E, Ey.
    destruct E as (E1 & E2 & E3). destruct Ey as (Y1 & Y2 & Y3).
    assert (P : same_pair x y) by (split; congruence).
    specialize (S1 y Iy P). specialize (B y (or_intror Iy)). lia. }
  rewrite Z. simpl. lia.
Qed.

End KeyFacts.

(** ** More on the handlers *)

Section HandlerFacts.

Import Matcher Bot Keys Calls.
Open Scope Z_scope.

Lemma seconds_of_window (now : Z) :
  Clock.timedelta ROLLING_WINDOW_DAYS <= now ->
  Clock.window_start now ROLLING_WINDOW_DAYS = Clock.int_timestamp now - WINDOW_SECONDS.
Proof.
  unfold Clock.window_start, Clock.int_timestamp, Clock.timedelta, WINDOW_SECONDS,
    ROLLING_WINDOW_DAYS.
  intros L. rewrite !Z.quot_div_nonneg by lia.
  replace (now - 7 * 86400 * 1000000) with (now + (- (7 * 86400)) * 1000000) by lia.
  rewrite Z.div_add by lia. lia.
Qed.

(** X6.  The window rolls: once every row of the pair is older than the
    window, to the whole second, the next message of the pair is allowed
    and recorded. *)
Theorem on_message_after_window (env : Env) (m : Message) (g : Z) (d : Store.DB) :
  reaches_quota m g ->
  count_raises env = None ->
  insert_raises env = None ->
  process_commands_raises env = None ->
  (forall r, In r (Store.rows d) ->
             Store.guild_id r = g -> Store.user_id r = author_id m ->
             (Store.posted_at_utc r + 1) * 1000000
             <= now_datetime env - Clock.timedelta ROLLING_WINDOW_DAYS) ->
  on_message env m (start d)
  = (Ok Allowed,
     mkWorld (Store.insert d g (author_id m) (Clock.int_timestamp (now_time env)))
             [ProcessCommands m]).
Proof.
  intros R F I P Old.
  assert (N : Store.select_count d (Some g) (author_id m)
                (Clock.window_start (now_datetime env) ROLLING_WINDOW_DAYS) < 1).
  { apply select_count_zero. intros r Ir. unfold Store.where_clause.
    destruct (Z.eqb_spec (Store.guild_id r) g) as [Eg|]; [|reflexivity].
    destruct (Z.eqb_spec (Store.user_id r) (author_id m)) as [Eu|]; [|reflexivity].
    cbn [andb]. specialize (Old r Ir Eg Eu).
    destruct (Z.geb_spec (Store.posted_at_utc r)
                (Clock.window_start (now_datetime env) ROLLING_WINDOW_DAYS)) as [G|];
      [exfalso|reflexivity].
    assert (Q : Store.posted_at_utc r + 1
                <= Clock.window_start (now_datetime env) ROLLING_WINDOW_DAYS).
    { unfold Clock.window_start, Clock.int_timestamp.
      rewrite <- (Z.quot_mul (Store.posted_at_utc r + 1) 1000000) by lia.
      apply Z.quot_le_mono; lia. }
    lia. }
  rewrite (@on_message_allows env m g d R F I N), P. reflexivity.
Qed.

Lemma on_message_after_window_witness :
  on_message (calm (T0 + 8 * 86400 * 1000000) (T0 + 8 * 86400 * 1000000)) ONE_LINK
             (start (Store.insert Store.empty 7 42 (Clock.int_timestamp T0)))
  = (Ok Allowed,
     mkWorld (Store.insert (Store.insert Store.empty 7 42 (Clock.int_timestamp T0)) 7 42
                (Clock.int_timestamp (T0 + 8 * 86400 * 1000000)))
             [ProcessCommands ONE_LINK]).
Proof.
  apply (@on_message_after_window (calm (T0 + 8 * 86400 * 1000000) (T0 + 8 * 86400 * 1000000))
           ONE_LINK 7 (Store.insert Store.empty 7 42 (Clock.int_timestamp T0)));
    try reflexivity.
  - repeat split; try reflexivity; vm_compute; discriminate.
  - intros r [<-|[]] _ _. vm_compute. discriminate.
Defined.

(** X7.  A message without a Shorts link, in a guild or not: the table is
    left as it was and the one call made is the command processing of the
    message. *)
Theorem on_message_no_links (env : Env) (m : Message) (d : Store.DB) :
  author_bot m = false ->
  truthy (webhook_id m) = false ->
  extract_shorts_links (Some (content m)) = [] ->
  on_message env m (start d)
  = (match process_commands_raises env with
     | Some e => Raise e
     | None => Ok NoLinks
     end,
     mkWorld d [ProcessCommands m]).
Proof.
  intros B W L. unfold on_message. rewrite B, W, L. cbn [orb].
  unfold bind, process_commands, call, ret, start. cbn.
  destruct (process_commands_raises env); reflexivity.
Qed.

Lemma on_message_no_links_witness :
  on_message (calm T0 T0)
             (mkMessage false 42 None (cps "https://youtu.be/abcde and nothing else") (Some 7))
             (start SAMPLE_DB)
  = (Ok NoLinks,
     mkWorld SAMPLE_DB
       [ProcessCommands
          (mkMessage false 42 None (cps "https://youtu.be/abcde and nothing else") (Some 7))]).
Proof.
  apply (@on_message_no_links (calm T0 T0)
           (mkMessage false 42 None (cps "https://youtu.be/abcde and nothing else") (Some 7))
           SAMPLE_DB); reflexivity.
Defined.

(** A message without a link, or outside a guild, goes to the command
    processing and nowhere else. *)
Lemma on_message_passes (env : Env) (m : Message) (d : Store.DB) :
  author_bot m = false ->
  truthy (webhook_id m) = false ->
  extract_shorts_links (Some (content m)) = [] \/ guild m = None ->
  snd (on_message env m (start d)) = mkWorld d [ProcessCommands m].
Proof.
  intros B W H. unfold on_message. rewrite B, W. cbn [orb].
  destruct (extract_shorts_links (Some (content m))) as [|l ls].
  - unfold bind, process_commands, call, ret, start. cbn.
    destruct (process_commands_raises env); reflexivity.
  - destruct H as [H|G]; [discriminate|]. rewrite G.
    unfold bind, process_commands, call, ret, start. cbn.
    destruct (process_commands_raises env); reflexivity.
Qed.

Lemma enforce_table (env : Env) (m : Message) (g : Z) (w : World) :
  db (snd (enforce env m g w)) = db w
  \/ (count_raises env = None
      /\ insert_raises env = None
      /\ Store.select_count (db w) (Some g) (author_id m)
           (Clock.window_start (now_datetime env) ROLLING_WINDOW_DAYS) < 1
      /\ db (snd (enforce env m g w))
         = Store.insert (db w) g (author_id m) (Clock.int_timestamp (now_time env))).
Proof.
  destruct (count_raises env) as [e|] eqn:F.
  - left. rewrite (@enforce_count_fails env m g e w F). reflexivity.
  - destruct (Z.lt_ge_cases
                (Store.select_count (db w) (Some g) (author_id m)
                   (Clock.window_start (now_datetime env) ROLLING_WINDOW_DAYS)) 1) as [N|N].
    + rewrite (@enforce_allow env m g w F N).
      destruct (insert_raises env) as [e|] eqn:I; [left; reflexivity|].
      right. auto.
    + left. rewrite (@enforce_block env m g w F N). apply block_keeps_db.
Qed.

Lemma on_message_table (env : Env) (m : Message) (d : Store.DB) :
  db (snd (on_message env m (start d))) = d
  \/ exists g,
       reaches_quota m g
       /\ count_raises env = None
       /\ insert_raises env = None
       /\ Store.select_count d (Some g) (author_id m)
            (Clock.window_start (now_datetime env) ROLLING_WINDOW_DAYS) < 1
       /\ db (snd (on_message env m (start d)))
          = Store.insert d g (author_id m) (Clock.int_timestamp (now_time env)).
Proof.
  destruct (author_bot m || truthy (webhook_id m)) eqn:BW.
  - left. unfold on_message. rewrite BW. reflexivity.
  - apply orb_false_iff in BW. destruct BW as [B W].
    destruct (extract_shorts_links (Some (content m))) as [|l ls] eqn:L.
    + left. rewrite (@on_message_passes env m d B W (or_introl L)). reflexivity.
    + assert (L' : extract_shorts_links (Some (content m)) <> []) by (rewrite L; discriminate).
      destruct (guild m) as [g|] eqn:G.
      * rewrite (@on_message_enforces env m g (start d) B W L' G), try_finally_commands.
        cbn [snd db].
        destruct (enforce_table env m g (start d)) as [E|(F & I & N & E)];
          [left; exact E|right].
        exists g. repeat split; auto.
      * left. rewrite (@on_message_passes env m d B W (or_intror G)). reflexivity.
Qed.

(** X8.  Whatever the message and whatever the outside answers,
    [on_message] leaves the table as it was or appends one row to it: the
    row of the message's guild and author at the second of the clock, and
    only for a message that reached the quota with a count of zero.  It
    never deletes or rewrites a row. *)
Theorem on_message_table_effect (env : Env) (m : Message) (d : Store.DB) :
  db (snd (on_message env m (start d))) = d
  \/ exists g,
       reaches_quota m g
       /\ count_raises env = None
       /\ insert_raises env = None
       /\ Store.select_count d (Some g) (author_id m)
            (Clock.window_start (now_datetime env) ROLLING_WINDOW_DAYS) < 1
       /\ db (snd (on_message env m (start d)))
          = Store.insert d g (author_id m) (Clock.int_timestamp (now_time env)).
Proof. exact (on_message_table env m d). Qed.

Lemma logs_ret {A} (P : action -> Prop) (a : A) : logs P (ret a).
Proof. intros w. exists []. rewrite app_nil_r. auto. Qed.

Lemma logs_raise {A} (P : action -> Prop) (e : exn) : logs P (@raise A e).
Proof. intros w. exists []. rewrite app_nil_r. auto. Qed.

Lemma logs_call (P : action -> Prop) (a : action) (f : option exn) :
  P a -> logs P (call a f).
Proof. intros Pa w. exists [a]. unfold call. destruct f; simpl; auto. Qed.

Lemma logs_bind {A B} (P : action -> Prop) (c : M A) (k : A -> M B) :
  logs P c -> (forall a, logs P (k a)) -> logs P (bind c k).
Proof.
  intros Hc Hk w. unfold bind. destruct (Hc w) as (l & E & F).
  destruct (c w) as [[a|e] w']; simpl in *; [|eauto].
  destruct (Hk a w') as (l' & E' & F'). exists (l ++ l').
  rewrite E', E, app_assoc. split; [reflexivity|apply Forall_app; auto].
Qed.

Lemma logs_try_except {A} (P : action -> Prop) (c : M A) (h : exn -> M A) :
  logs P c -> (forall e, logs P (h e)) -> logs P (try_except c h).
Proof.
  intros Hc Hh w. unfold try_except. destruct (Hc w) as (l & E & F).
  destruct (c w) as [[a|e] w']; simpl in *; [eauto|].
  destruct (Hh e w') as (l' & E' & F'). exists (l ++ l').
  rewrite E', E, app_assoc. split; [reflexivity|apply Forall_app; auto].
Qed.

Ltac logging :=
  repeat first
    [ apply logs_ret | apply logs_raise | apply logs_call; exact I
    | apply logs_bind | apply logs_try_except
    | match goal with
      | |- forall _, _ => intro
      | |- logs _ (if ?b then _ else _) => destruct b
      end ].

Lemma block_logs (env : Env) (m : Message) : logs advisory (block env m).
Proof. unfold block. cbv [DELETE_OFFENDING_MESSAGES DM_USER_ON_BLOCK]. logging. Qed.

Lemma enforce_logs (env : Env) (m : Message) (g : Z) : logs advisory (enforce env m g).
Proof.
  unfold enforce. apply logs_bind.
  - intros w. exists []. rewrite app_nil_r. unfold count_within_window.
    destruct (count_raises env); auto.
  - intros n. destruct (n >=? 1); [apply block_logs|].
    apply logs_bind; [|intros; apply logs_ret].
    intros w. exists []. rewrite app_nil_r. unfold record_shorts_post.
    destruct (insert_raises env); auto.
Qed.

(** X9.  Every message that is not ignored is handed to the command
    processing exactly once, as the last call of the handler, whatever
    failed before: a storage error, a refused deletion, a notice that could
    not be sent. *)
Theorem on_message_processes_commands (env : Env) (m : Message) (d : Store.DB) :
  author_bot m = false ->
  truthy (webhook_id m) = false ->
  exists l,
    trace (snd (on_message env m (start d))) = l ++ [ProcessCommands m]
    /\ Forall advisory l.
Proof.
  intros B W.
  destruct (extract_shorts_links (Some (content m))) as [|x xs] eqn:L.
  - exists []. rewrite (@on_message_passes env m d B W (or_introl L)). auto.
  - assert (L' : extract_shorts_links (Some (content m)) <> []) by (rewrite L; discriminate).
    destruct (guild m) as [g|] eqn:G.
    + rewrite (@on_message_enforces env m g (start d) B W L' G), try_finally_commands.
      cbn [snd trace]. destruct (enforce_logs env m g (start d)) as (l & E & F).
      exists l. rewrite E. auto.
    + exists []. rewrite (@on_message_passes env m d B W (or_intror G)). auto.
Qed.

Lemma on_message_processes_commands_witness :
  exists l,
    trace (snd (on_message (calm T0 T0) ONE_LINK (start SAMPLE_DB)))
    = l ++ [ProcessCommands ONE_LINK]
    /\ Forall advisory l.
Proof.
  apply (@on_message_processes_commands (calm T0 T0) ONE_LINK SAMPLE_DB); reflexivity.
Defined.

(** The block branch when the deletions and the channel notice fail, if at
    all, with an [HTTPException]. *)
Lemma block_outcome (env : Env) (m : Message) (w : World) :
  caught_http (message_delete_raises env) = true ->
  caught_http (channel_send_raises env) = true ->
  caught_http (warn_delete_raises env) = true ->
  block env m w
  = (match author_send_raises env with
     | Some e => if is_Forbidden e then Ok Blocked else Raise e
     | None => Ok Blocked
     end,
     mkWorld (db w) (trace w ++ block_calls env m)).
Proof.
  unfold caught_http, block_calls, notice_for. intros H1 H2 H3. destruct w as [d tr].
  unfold block, bind, try_except, call, ret, raise. cbn.
  destruct (message_delete_raises env) as [[]|]; try discriminate; cbn;
    (destruct (channel_send_raises env) as [[]|]; try discriminate; cbn;
     try (destruct (warn_delete_raises env) as [[]|]; try discriminate; cbn);
     destruct (author_send_raises env) as [[]|]; cbn;
     rewrite <- ?app_assoc; reflexivity).
Qed.

(** X10.  The calls of a blocked message, in order: the deletion of the
    message, the channel notice (saying so when the deletion was refused),
    eight seconds of sleep and the removal of the notice when the notice was
    sent, the private notice, the command processing.  A refused or failed
    deletion, and a channel notice that cannot be sent, stop none of the
    calls after them. *)
Theorem on_message_block_calls (env : Env) (m : Message) (g : Z) (d : Store.DB) :
  reaches_quota m g ->
  count_raises env = None ->
  1 <= Store.select_count d (Some g) (author_id m)
         (Clock.window_start (now_datetime env) ROLLING_WINDOW_DAYS) ->
  caught_http (message_delete_raises env) = true ->
  caught_http (channel_send_raises env) = true ->
  caught_http (warn_delete_raises env) = true ->
  snd (on_message env m (start d))
  = mkWorld d (block_calls env m ++ [ProcessCommands m]).
Proof.
  intros (B & W & L & G) F N H1 H2 H3.
  rewrite (@on_message_enforces env m g (start d) B W L G), try_finally_commands.
  rewrite (@enforce_block env m g (start d) F N), (@block_outcome env m (start d) H1 H2 H3).
  reflexivity.
Qed.

Lemma on_message_block_calls_witness :
  snd (on_message (mkEnv T0 T0 None None None (Some Forbidden) (Some HTTPException)
                         None None None None)
                  ONE_LINK (start SAMPLE_DB))
  = mkWorld SAMPLE_DB
      [MessageDelete ONE_LINK; ChannelSend (BlockedNotice 42 7 true);
       AuthorSend 42 LimitDM; ProcessCommands ONE_LINK].
Proof.
  apply (@on_message_block_calls
           (mkEnv T0 T0 None None None (Some Forbidden) (Some HTTPException)
                  None None None None) ONE_LINK 7 SAMPLE_DB);
    first [ reflexivity
          | vm_compute; discriminate
          | repeat split; try reflexivity; vm_compute; discriminate ].
Defined.

(** X11.  The private notice is guarded against [Forbidden] only: when it
    fails with any other error, the handler raises that error (or the one
    of the command processing), after the message was deleted and the
    channel notice sent, and with the table as it was. *)
Theorem on_message_private_notice_fails
        (env : Env) (m : Message) (g : Z) (d : Store.DB) (e : exn) :
  reaches_quota m g ->
  count_raises env = None ->
  1 <= Store.select_count d (Some g) (author_id m)
         (Clock.window_start (now_datetime env) ROLLING_WINDOW_DAYS) ->
  caught_http (message_delete_raises env) = true ->
  caught_http (channel_send_raises env) = true ->
  caught_http (warn_delete_raises env) = true ->
  author_send_raises env = Some e ->
  is_Forbidden e = false ->
  on_message env m (start d)
  = (Raise (match process_commands_raises env with
            | Some e' => e'
            | None => e
            end),
     mkWorld d (block_calls env m ++ [ProcessCommands m])).
Proof.
  intros (B & W & L & G) F N H1 H2 H3 A NF.
  rewrite (@on_message_enforces env m g (start d) B W L G), try_finally_commands.
  rewrite (@enforce_block env m g (start d) F N), (@block_outcome env m (start d) H1 H2 H3).
  rewrite A, NF. cbn. destruct (process_commands_raises env); reflexivity.
Qed.

Lemma on_message_private_notice_fails_witness :
  fst (on_message (mkEnv T0 T0 None None None None None None (Some HTTPException) None None)
                  ONE_LINK (start SAMPLE_DB))
  = Raise HTTPException.
Proof.
  rewrite (@on_message_private_notice_fails
             (mkEnv T0 T0 None None None None None None (Some HTTPException) None None)
             ONE_LINK 7 SAMPLE_DB HTTPException);
    first [ reflexivity
          | vm_compute; discriminate
          | repeat split; try reflexivity; vm_compute; discriminate ].
Defined.

End HandlerFacts.

(** ** The two commands, and the invariant of the table *)

Section CommandFacts.

Import Matcher Bot Keys Calls.
Open Scope Z_scope.

Lemma shorts_stats_run (env : Env) (i : Interaction) (member : option Z) (d : Store.DB) :
  count_raises env = None ->
  shorts_stats env i member (start d)
  = (match response_send_raises env with
     | Some e => Raise e
     | None => Ok tt
     end,
     mkWorld d
       [ResponseSend
          (StatsReply (match member with Some u => u | None => interaction_user i end)
             (Store.select_count d (interaction_guild_id i)
                (match member with Some u => u | None => interaction_user i end)
                (Clock.window_start (now_datetime env) ROLLING_WINDOW_DAYS))
             ROLLING_WINDOW_DAYS)]).
Proof.
  intros F. unfold shorts_stats, bind, count_within_window, call, start. rewrite F. cbn.
  destruct (response_send_raises env); reflexivity.
Qed.

(** X12.  Right after a reset, the same user's [/shorts_stats] in that
    guild, read at the same or a later clock, answers 0; and it leaves the
    table as the reset left it. *)
Theorem shorts_stats_after_reset
        (env env' : Env) (i : Interaction) (g : Z) (d : Store.DB) :
  interaction_guild_id i = Some g ->
  delete_raises env = None ->
  count_raises env' = None ->
  now_datetime env <= now_datetime env' ->
  let d1 := db (snd (shorts_reset_me env i (start d))) in
  snd (shorts_stats env' i None (start d1))
  = mkWorld d1 [ResponseSend (StatsReply (interaction_user i) 0 ROLLING_WINDOW_DAYS)].
Proof.
  intros G F C L d1. rewrite (@shorts_stats_run env' i None d1 C). cbn [snd].
  unfold d1. rewrite (@shorts_reset_me_db env i d F), G.
  assert (Z0 : Store.select_count
                 (Store.delete d (Some g) (interaction_user i)
                    (Clock.window_start (now_datetime env) ROLLING_WINDOW_DAYS))
                 (Some g) (interaction_user i)
                 (Clock.window_start (now_datetime env') ROLLING_WINDOW_DAYS) = 0).
  { pose proof (@select_count_delete d g (interaction_user i) _ _
                  (window_start_mono ROLLING_WINDOW_DAYS L)) as H1.
    pose proof (select_count_nonneg
                  (Store.delete d (Some g) (interaction_user i)
                     (Clock.window_start (now_datetime env) ROLLING_WINDOW_DAYS))
                  (Some g) (interaction_user i)
                  (Clock.window_start (now_datetime env') ROLLING_WINDOW_DAYS)) as H2.
    lia. }
  rewrite Z0. reflexivity.
Qed.

Lemma shorts_stats_after_reset_witness :
  snd (shorts_stats (calm (T0 + 1) (T0 + 1)) RESET_BY_42 None
         (start (db (snd (shorts_reset_me (calm T0 T0) RESET_BY_42 (start SAMPLE_DB))))))
  = mkWorld (db (snd (shorts_reset_me (calm T0 T0) RESET_BY_42 (start SAMPLE_DB))))
            [ResponseSend (StatsReply 42 0 ROLLING_WINDOW_DAYS)].
Proof.
  apply (@shorts_stats_after_reset (calm T0 T0) (calm (T0 + 1) (T0 + 1)) RESET_BY_42 7
           SAMPLE_DB); try reflexivity.
  vm_compute. discriminate.
Defined.

(** X13.  Outside a guild (the interaction carries no guild id) the two
    commands find no row: [/shorts_stats] answers 0 and [/shorts_reset_me]
    deletes nothing, whatever the table holds. *)
Theorem commands_without_guild (env : Env) (i : Interaction) (member : option Z)
        (d : Store.DB) :
  interaction_guild_id i = None ->
  (count_raises env = None ->
   snd (shorts_stats env i member (start d))
   = mkWorld d [ResponseSend
                  (StatsReply (match member with Some u => u | None => interaction_user i end)
                              0 ROLLING_WINDOW_DAYS)])
  /\ db (snd (shorts_reset_me env i (start d))) = d.
Proof.
  intros G. split.
  - intros C. rewrite (@shorts_stats_run env i member d C), G. cbn [snd].
    unfold Store.select_count.
    assert (E : forall u c l, filter (Store.where_clause None u c) l = []).
    { intros u c l. induction l; simpl; auto. }
    rewrite E. reflexivity.
  - unfold shorts_reset_me, bind, call, start. destruct (delete_raises env);
      [reflexivity|]. rewrite G.
    assert (E : forall u c l,
               filter (fun r => negb (Store.where_clause None u c r)) l = l).
    { intros u c l. induction l as [|r l IH]; [reflexivity|]. cbn [filter].
      destruct (Store.where_clause None u c r) eqn:X; [discriminate X|].
      cbn [negb]. rewrite IH. reflexivity. }
    unfold Store.delete. rewrite E.
    destruct (response_send_raises env); destruct d; reflexivity.
Qed.

Lemma commands_without_guild_witness :
  db (snd (shorts_reset_me (calm T0 T0) (mkInteraction None 42) (start SAMPLE_DB)))
  = SAMPLE_DB.
Proof.
  exact (proj2 (@commands_without_guild (calm T0 T0) (mkInteraction None 42) None
                  SAMPLE_DB eq_refl)).
Defined.

Lemma delete_other_pair (l : list Store.Row) (g : option Z) (u c g' u' c' : Z) :
  g <> Some g' \/ u <> u' ->
  filter (Store.where_clause (Some g') u' c')
         (filter (fun r => negb (Store.where_clause g u c r)) l)
  = filter (Store.where_clause (Some g') u' c') l.
Proof.
  intros D. induction l as [|r l IH]; [reflexivity|]. cbn [filter].
  destruct (Store.where_clause g u c r) eqn:E1; cbn [negb filter].
  - destruct (Store.where_clause (Some g') u' c' r) eqn:E2; [exfalso|exact IH].
    destruct g as [g0|]; [|discriminate].
    unfold Store.where_clause in E1, E2.
    apply andb_true_iff in E1, E2. destruct E1 as [E1 _], E2 as [E2 _].
    apply andb_true_iff in E1, E2. destruct E1 as [A1 B1], E2 as [A2 B2].
    apply Z.eqb_eq in A1, B1, A2, B2. destruct D as [D|D]; [apply D|]; congruence.
  - rewrite IH. reflexivity.
Qed.

(** X14.  A reset is scoped to its user and guild: whatever the outside
    answers, it leaves the count of every other pair, at every cutoff, as
    it was. *)
Theorem shorts_reset_me_other_pairs
        (env : Env) (i : Interaction) (d : Store.DB) (g' u' cutoff : Z) :
  interaction_guild_id i <> Some g' \/ interaction_user i <> u' ->
  Store.select_count (db (snd (shorts_reset_me env i (start d)))) (Some g') u' cutoff
  = Store.select_count d (Some g') u' cutoff.
Proof.
  intros D. destruct (delete_raises env) as [e|] eqn:F.
  - unfold shorts_reset_me, bind, start. rewrite F. reflexivity.
  - rewrite (@shorts_reset_me_db env i d F). unfold Store.select_count, Store.delete.
    cbn [Store.rows]. rewrite (@delete_other_pair (Store.rows d) _ _ _ g' u' cutoff D). reflexivity.
Qed.

Lemma shorts_reset_me_other_pairs_witness :
  Store.select_count (db (snd (shorts_reset_me (calm T0 T0) RESET_BY_42 (start SAMPLE_DB))))
    (Some 7) 43 0
  = Store.select_count SAMPLE_DB (Some 7) 43 0.
Proof.
  apply shorts_reset_me_other_pairs. right. discriminate.
Defined.

(** X15.  The failures of a reset: when the DELETE raises, nothing is
    deleted and nothing is answered; when the DELETE went through and the
    answer cannot be sent, the handler raises and the rows stay deleted. *)
Theorem shorts_reset_me_failures (env : Env) (i : Interaction) (d : Store.DB) (e : exn) :
  (delete_raises env = Some e ->
   shorts_reset_me env i (start d) = (Raise e, start d))
  /\ (delete_raises env = None ->
      response_send_raises env = Some e ->
      shorts_reset_me env i (start d)
      = (Raise e,
         mkWorld (Store.delete d (interaction_guild_id i) (interaction_user i)
                    (Clock.window_start (now_datetime env) ROLLING_WINDOW_DAYS))
                 [ResponseSend ResetReply])).
Proof.
  split.
  - intros F. unfold shorts_reset_me, bind. rewrite F. reflexivity.
  - intros F R. unfold shorts_reset_me, bind, call, start. rewrite F, R. reflexivity.
Qed.

Lemma shorts_reset_me_failures_witness :
  shorts_reset_me (mkEnv T0 T0 None None (Some SqliteError) None None None None None None)
                  RESET_BY_42 (start SAMPLE_DB)
  = (Raise SqliteError, start SAMPLE_DB).
Proof.
  exact (proj1 (@shorts_reset_me_failures
                  (mkEnv T0 T0 None None (Some SqliteError) None None None None None None)
                  RESET_BY_42 SAMPLE_DB SqliteError) eq_refl).
Defined.

(** X16.  The one-per-window invariant: when any two rows of a pair are
    more than a window apart, they still are after [on_message], whatever
    the message and whatever the outside answers, as long as the clock read
    at the insert is not before the clock read at the count; and after
    [/shorts_reset_me]. *)
Theorem handlers_keep_spaced (env : Env) (m : Message) (i : Interaction) (d : Store.DB) :
  spaced (Store.rows d) ->
  Clock.timedelta ROLLING_WINDOW_DAYS <= now_datetime env ->
  now_datetime env <= now_time env ->
  spaced (Store.rows (db (snd (on_message env m (start d)))))
  /\ spaced (Store.rows (db (snd (shorts_reset_me env i (start d))))).
Proof.
  intros S W L. split.
  - destruct (on_message_table env m d) as [->|(g & _ & _ & _ & N & ->)];
      [exact S|].
    unfold Store.insert. cbn [Store.rows]. apply spaced_snoc; [exact S|].
    intros x Ix [P1 P2]. cbn [Store.guild_id Store.user_id Store.posted_at_utc] in *.
    pose proof (proj1 (select_count_zero d g (author_id m) _) N x Ix) as E.
    unfold Store.where_clause in E. rewrite P1, P2, !Z.eqb_refl in E. cbn [andb] in E.
    destruct (Z.geb_spec (Store.posted_at_utc x)
                (Clock.window_start (now_datetime env) ROLLING_WINDOW_DAYS)) as [|Lt];
      [discriminate|].
    rewrite (seconds_of_window W) in Lt.
    assert (Clock.int_timestamp (now_datetime env) <= Clock.int_timestamp (now_time env))
      by (unfold Clock.int_timestamp; apply Z.quot_le_mono; lia).
    lia.
  - destruct (delete_raises env) as [e|] eqn:F.
    + unfold shorts_reset_me, bind, start. rewrite F. exact S.
    + rewrite (@shorts_reset_me_db env i d F). unfold Store.delete. cbn [Store.rows].
      apply spaced_filter, S.
Qed.

Lemma handlers_keep_spaced_witness :
  spaced (Store.rows (db (snd (on_message (calm (T0 + 86400000000) (T0 + 86400000005))
                                          ONE_LINK (start SAMPLE_DB))))).
Proof.
  refine (proj1 (@handlers_keep_spaced (calm (T0 + 86400000000) (T0 + 86400000005))
                   ONE_LINK RESET_BY_42 SAMPLE_DB _ _ _)).
  - simpl. repeat split; try exact I; intros r' H [P1 P2];
      repeat (destruct H as [<-|H]; [vm_compute in *; try discriminate; reflexivity|]);
      destruct H.
  - vm_compute. discriminate.
  - vm_compute. discriminate.
Defined.

(** X17.  Under that invariant, and with no row from the future, the count
    of a pair over the window is 0 or 1. *)
Theorem count_within_window_at_most_one (env : Env) (g u : Z) (d : Store.DB) :
  spaced (Store.rows d) ->
  (forall r, In r (Store.rows d) ->
             Store.posted_at_utc r <= Clock.int_timestamp (now_datetime env)) ->
  Clock.timedelta ROLLING_WINDOW_DAYS <= now_datetime env ->
  count_raises env = None ->
  exists n,
    count_within_window env (Some g) u ROLLING_WINDOW_DAYS (start d) = (Ok n, start d)
    /\ 0 <= n <= 1.
Proof.
  intros S B W F. eexists. unfold count_within_window. rewrite F. split; [reflexivity|].
  cbn [db start]. split; [apply select_count_nonneg|].
  unfold Store.select_count. rewrite (seconds_of_window W).
  pose proof (@spaced_count (Store.rows d) g u _ S B). lia.
Qed.

Lemma count_within_window_at_most_one_witness :
  exists n,
    count_within_window (calm T0 T0) (Some 7) 42 ROLLING_WINDOW_DAYS (start SAMPLE_DB)
    = (Ok n, start SAMPLE_DB)
    /\ 0 <= n <= 1.
Proof.
  apply (@count_within_window_at_most_one (calm T0 T0) 7 42 SAMPLE_DB).
  - simpl. repeat split; try exact I; intros r' H [P1 P2];
      repeat (destruct H as [<-|H]; [vm_compute in *; try discriminate; reflexivity|]);
      destruct H.
  - intros r H.
    repeat (destruct H as [<-|H]; [vm_compute; discriminate|]); destruct H.
  - vm_compute. discriminate.
  - reflexivity.
Defined.

End CommandFacts.

(** ** More on handlers running together *)

Section InterleavingFacts.

Import Bot Tasks.
Open Scope Z_scope.

Lemma allowed_cons (p : phase) (ps : list phase) :
  allowed (p :: ps) = (allowed [p] + allowed ps)%nat.
Proof. unfold allowed. cbn [filter]. destruct p as [| |[]]; reflexivity. Qed.

Lemma step_accounts (g u t : Z) (d : Store.DB) (p : phase) :
  (List.length (Store.rows (fst (step g u t d p))) + allowed [p]
   = List.length (Store.rows d) + allowed [snd (step g u t d p)])%nat
  /\ exists l, Store.rows (fst (step g u t d p)) = Store.rows d ++ l
               /\ Forall (fun r => Store.guild_id r = g /\ Store.user_id r = u) l.
Proof.
  destruct p as [| |e]; cbn [step].
  - destruct (Store.select_count d (Some g) u
                (Clock.window_start t ROLLING_WINDOW_DAYS) >=? 1);
      (split; [reflexivity|exists []; rewrite app_nil_r; auto]).
  - split.
    + cbn [fst snd Store.insert Store.rows]. rewrite length_app. unfold allowed. simpl. lia.
    + eexists. split; [reflexivity|]. repeat constructor.
  - split; [reflexivity|exists []; rewrite app_nil_r; auto].
Qed.

Lemma step_nth_accounts (g u t : Z) (ps : list phase) :
  forall i d,
    (List.length (Store.rows (fst (step_nth g u t i d ps))) + allowed ps
     = List.length (Store.rows d) + allowed (snd (step_nth g u t i d ps)))%nat
    /\ exists l, Store.rows (fst (step_nth g u t i d ps)) = Store.rows d ++ l
                 /\ Forall (fun r => Store.guild_id r = g /\ Store.user_id r = u) l.
Proof.
  induction ps as [|p ps IH]; intros i d.
  - destruct i; cbn [step_nth fst snd];
      (split; [reflexivity|exists []; rewrite app_nil_r; auto]).
  - destruct i as [|i]; cbn [step_nth].
    + destruct (step_accounts g u t d p) as [H1 H2].
      destruct (step g u t d p) as [d' p']. cbn [fst snd] in *.
      split; [|exact H2]. rewrite (allowed_cons p), (allowed_cons p'). lia.
    + destruct (IH i d) as [H1 H2].
      destruct (step_nth g u t i d ps) as [d' ps']. cbn [fst snd] in *.
      split; [|exact H2]. rewrite (allowed_cons p ps), (allowed_cons p ps'). lia.
Qed.

Lemma run_accounts (g u : Z) (sched : list (nat * Z)) :
  forall d ps,
    (List.length (Store.rows (fst (run g u sched d ps))) + allowed ps
     = List.length (Store.rows d) + allowed (snd (run g u sched d ps)))%nat
    /\ exists l, Store.rows (fst (run g u sched d ps)) = Store.rows d ++ l
                 /\ Forall (fun r => Store.guild_id r = g /\ Store.user_id r = u) l.
Proof.
  induction sched as [|[i t] sched IH]; intros d ps; cbn [run].
  - split; [reflexivity|exists []; rewrite app_nil_r; auto].
  - destruct (step_nth_accounts g u t ps i d) as [H1 (l1 & E1 & F1)].
    destruct (step_nth g u t i d ps) as [d' ps']. cbn [fst snd] in *.
    destruct (IH d' ps') as [H2 (l2 & E2 & F2)]. split; [lia|].
    exists (l1 ++ l2). rewrite E2, E1, app_assoc. split; [reflexivity|].
    apply Forall_app; auto.
Qed.

Lemma allowed_repeat_AtCount (n : nat) : allowed (repeat AtCount n) = 0%nat.
Proof. induction n; [reflexivity|]. simpl. exact IHn. Qed.

(** X18.  However the calls for a pair interleave and whatever the clock
    reads, the table only grows, by rows of that pair, and by exactly as
    many rows as calls were allowed: an allowed call stores one row, a
    blocked or unfinished call none. *)
Theorem interleaved_calls_account (g u : Z) (sched : list (nat * Z)) (d : Store.DB) (n : nat) :
  List.length (Store.rows (fst (run g u sched d (repeat AtCount n))))
  = (List.length (Store.rows d) + allowed (snd (run g u sched d (repeat AtCount n))))%nat
  /\ exists l,
       Store.rows (fst (run g u sched d (repeat AtCount n))) = Store.rows d ++ l
       /\ Forall (fun r => Store.guild_id r = g /\ Store.user_id r = u) l.
Proof.
  destruct (run_accounts g u sched d (repeat AtCount n)) as [H1 H2].
  rewrite allowed_repeat_AtCount in H1. split; [lia|exact H2].
Qed.

End InterleavingFacts.
